(** * Validation of a hash-linked ledger: [code/part-one/validation.js]

    A shallow embedding of the four exported functions of the module,
    [isValidTransaction], [isValidBlock], [isValidChain] and [breakChain],
    and the properties of them that the specification states.

    Modelling choices.
    - Transactions and blocks are JavaScript objects: they have an identity
      and live in a store, and arrays hold references to them.  The same
      transaction object may therefore sit in several blocks, and the same
      block object at several indices of a chain.
    - Arrays are dense (they have no holes) and are never written by this
      module, so an array is the list of its elements; indexing past the
      end gives [undefined], here [None].
    - Numbers ([amount], [nonce]) are the integral ones, as [Z], and are
      turned into strings as JavaScript turns the double nearest to them;
      strings are [string]; [previousHash] is a string or [null].
    - A function of the module is a computation over the store that either
      completes normally with a value or throws, keeping the store it had
      reached.
    - The two collaborators, [signing.verify] and the SHA-512 digest of
      Node's [crypto], are parameters.  Calls of [signing.verify] are
      recorded in the store, so that "is not consulted" can be stated. *)

From Stdlib Require Import ZArith String List Lia Decimal DecimalString.
From stdpp Require Import base option list gmap strings.

Local Open Scope string_scope.
Local Open Scope list_scope.
Local Open Scope Z_scope.

(** ** Data model *)

(** References to objects. *)
Definition loc := positive.

(** [new Transaction(...)]: the four fields the validators read. *)
Record Transaction := mkTransaction {
  source : string;
  recipient : string;
  amount : Z;
  signature : string
}.

(** A block; [transactions] is an array of transaction objects. *)
Record Block := mkBlock {
  transactions : list loc;
  previousHash : option string;
  nonce : Z;
  hash : string
}.

(** A blockchain; [blocks] is an array of block objects. *)
Record Blockchain := mkBlockchain {
  blocks : list loc
}.

(** One recorded call [signing.verify(publicKey, message, signature)]. *)
Definition verify_call : Type := string * string * string.

(** The store: the transaction objects, the block objects, and the calls
    made to the signature collaborator so far (oldest first). *)
Record store := mkStore {
  txs : gmap loc Transaction;
  blks : gmap loc Block;
  verify_calls : list verify_call
}.

(** ** Completions and the computation monad *)

Inductive exn :=
| TypeError
| CollaboratorError (message : string).

Inductive completion (A : Type) :=
| Normal (a : A)
| Throw (e : exn).
Arguments Normal {A} a.
Arguments Throw {A} e.

Definition M (A : Type) : Type := store -> completion A * store.

#[export] Instance M_ret : MRet M := fun A a s => (Normal a, s).

#[export] Instance M_bind : MBind M := fun A B f m s =>
  match m s with
  | (Normal a, s') => f a s'
  | (Throw e, s') => (Throw e, s')
  end.

(** The value a call returned, and the store it left. *)
Definition result {A} (r : completion A * store) : completion A := fst r.
Definition final {A} (r : completion A * store) : store := snd r.

(** ** The JavaScript runtime, as far as the module uses it *)

(** *** Numbers as strings

    A number of the model is an integer; the number the program holds is
    the double nearest to it.  [Number::toString] prints the shortest
    digits that read back as that double: every digit up to [2^53], fewer
    beyond, in positional form below [10^21] and in exponent form from
    there on. *)

(** The decimal digits of a non-negative integer. *)
Definition decimal (v : Z) : string := NilZero.string_of_int (Z.to_int v).

(** The number of decimal digits of a non-negative integer. *)
Definition digits (v : Z) : Z := Z.of_nat (String.length (decimal v)).

(** The double nearest to a non-negative integer, ties going to the even
    significand: the integer itself up to 53 bits, and beyond that its 53
    leading bits, rounded.  From [2^1024] on the result stands for
    [Infinity]. *)
Definition round_to_double (z : Z) : Z :=
  let bits := Z.log2 z + 1 in
  if bits <=? 53 then z else
  let shift := bits - 53 in
  let q := Z.shiftr z shift in
  let r := Z.land z (Z.ones shift) in
  let half := Z.shiftl 1 (shift - 1) in
  let q' := if (half <? r) || ((r =? half) && Z.odd q) then q + 1 else q in
  Z.shiftl q' shift.

(** The integer with the fewest significant digits that rounds to the
    double [x]; among those the one nearest to [x], and of two equally
    near the one whose last significant digit is even.  [k] counts the
    significant digits tried ([17] always suffice), [d] is the number of
    digits of [x]; the two candidates with [k] digits are the multiples of
    [10^(d-k)] on either side of [x]. *)
Fixpoint shortest_from (fuel : nat) (k d x : Z) : Z :=
  match fuel with
  | O => x
  | S fuel' =>
      let m := d - k in
      if m <=? 0 then x else
      let p := 10 ^ m in
      let lo := (x / p) * p in
      let hi := lo + p in
      let lo_ok := round_to_double lo =? x in
      let hi_ok := round_to_double hi =? x in
      if lo_ok && hi_ok then
        if x - lo <? hi - x then lo
        else if hi - x <? x - lo then hi
        else if Z.even (x / p) then lo else hi
      else if lo_ok then lo
      else if hi_ok then hi
      else shortest_from fuel' (k + 1) d x
  end.

Definition shortest (x : Z) : Z := shortest_from 17 1 (digits x) x.

(** A positive integer without its trailing zeros. *)
Fixpoint strip_zeros (fuel : nat) (v : Z) : Z :=
  match fuel with
  | O => v
  | S fuel' => if (v mod 10 =? 0) && (0 <? v) then strip_zeros fuel' (v / 10)
               else v
  end.

(** Exponent form, [d.ddde+n], of a positive integer. *)
Definition exponent_form (v : Z) : string :=
  let n := digits v in
  let s := decimal (strip_zeros (Z.to_nat n) v) in
  match s with
  | String c rest =>
      String c (if String.eqb rest "" then "" else "." +:+ rest)
      +:+ "e+" +:+ decimal (n - 1)
  | EmptyString => s
  end.

(** [Number::toString] in radix 10 of a non-negative integral number. *)
Definition Number_toString_abs (z : Z) : string :=
  let x := round_to_double z in
  if 2 ^ 1024 <=? x then "Infinity" else
  let v := if x <? 2 ^ 53 then x else shortest x in
  if v <? 10 ^ 21 then decimal v else exponent_form v.

(** [Number.prototype.toString] on an integral number. *)
Definition Number_toString (n : Z) : string :=
  if n <? 0 then "-" +:+ Number_toString_abs (- n)
  else Number_toString_abs n.

(** [ToString] of a value that is a string or [null], as [+] applies it
    when the other operand is a string. *)
Definition ToString_nullable (v : option string) : string :=
  match v with
  | Some s => s
  | None => "null"
  end.

(** [a !== b] for [a] a string or [null] and [b] a string. *)
Definition strict_neq (a : option string) (b : string) : bool :=
  match a with
  | Some s => negb (String.eqb s b)
  | None => true
  end.

(** [v !== null]. *)
Definition not_null (v : option string) : bool :=
  match v with
  | Some _ => true
  | None => false
  end.

(** [Array.prototype.join]. *)
Definition join (separator : string) (xs : list string) : string :=
  String.concat separator xs.

(** [Array.prototype.every]: stops at the first element the callback
    rejects. *)
Fixpoint every {A} (callback : A -> M bool) (xs : list A) : M bool :=
  match xs with
  | [] => mret true
  | x :: rest =>
      ok ← callback x;
      if ok : bool then every callback rest else mret false
  end.

(** [Array.prototype.some], the callback receiving the element and its
    index: stops at the first element the callback accepts. *)
Fixpoint some_from {A} (callback : A -> nat -> M bool) (i : nat) (xs : list A)
  : M bool :=
  match xs with
  | [] => mret false
  | x :: rest =>
      hit ← callback x i;
      if hit : bool then mret true else some_from callback (S i) rest
  end.

Definition some {A} (callback : A -> nat -> M bool) (xs : list A) : M bool :=
  some_from callback 0%nat xs.

(** [Array.prototype.map]. *)
Fixpoint Array_map {A B} (callback : A -> M B) (xs : list A) : M (list B) :=
  match xs with
  | [] => mret []
  | x :: rest =>
      y ← callback x;
      ys ← Array_map callback rest;
      mret (y :: ys)
  end.

(** [Array.prototype.reduce] with an initial value and a pure callback. *)
Definition reduce {A B} (callback : B -> A -> B) (init : B) (xs : list A) : B :=
  fold_left callback xs init.

(** [Array.prototype.slice(start)]. *)
Definition slice {A} (start : nat) (xs : list A) : list A := drop start xs.

(** ** Property access *)

(** [v.f] for [v] expected to be a transaction object.  [None] is
    [undefined]; a reference the store does not hold stands for a slot that
    holds no object.  Both raise [TypeError]. *)
Definition tx_get {A} (f : Transaction -> A) (v : option loc) : M A :=
  fun s =>
    match v ≫= (txs s !!.) with
    | Some t => (Normal (f t), s)
    | None => (Throw TypeError, s)
    end.

(** [v.f] for [v] expected to be a block object. *)
Definition blk_get {A} (f : Block -> A) (v : option loc) : M A :=
  fun s =>
    match v ≫= (blks s !!.) with
    | Some b => (Normal (f b), s)
    | None => (Throw TypeError, s)
    end.

Definition with_amount (t : Transaction) (n : Z) : Transaction :=
  {| source := source t; recipient := recipient t;
     amount := n; signature := signature t |}.

Definition with_txs (s : store) (h : gmap loc Transaction) : store :=
  {| txs := h; blks := blks s; verify_calls := verify_calls s |}.

(** [v.amount = n]: the one assignment of the module. *)
Definition tx_set_amount (v : option loc) (n : Z) : M unit :=
  fun s =>
    match v with
    | Some l =>
        match txs s !! l with
        | Some t => (Normal tt, with_txs s (<[l := with_amount t n]> (txs s)))
        | None => (Throw TypeError, s)
        end
    | None => (Throw TypeError, s)
    end.

(** ** A small ledger to run the module on

    Stand-ins for the two collaborators, and a store with a few
    transactions and blocks.  The stand-in signature of a message is the
    message itself behind the signer's name; the stand-in digest wraps its
    input.  An empty public key makes the stand-in verifier throw. *)
Module Demo.

Definition sign (pk msg : string) : string := "signed:" +:+ pk +:+ ":" +:+ msg.

Definition verify (pk msg sig : string) : completion bool :=
  if String.eqb pk "" then Throw (CollaboratorError "bad public key")
  else Normal (String.eqb sig (sign pk msg)).

Definition digest (s : string) : string := "h(" +:+ s +:+ ")".

(** Transaction objects 10 to 13. *)
Definition alice_pays_bob : Transaction :=
  {| source := "alice"; recipient := "bob"; amount := 5;
     signature := sign "alice" "alicebob5" |}.

Definition bob_pays_carol : Transaction :=
  {| source := "bob"; recipient := "carol"; amount := 2;
     signature := sign "bob" "bobcarol2" |}.

Definition negative : Transaction :=
  {| source := "mallory"; recipient := "bob"; amount := -3;
     signature := sign "mallory" "mallorybob-3" |}.

Definition unsigned : Transaction :=
  {| source := "carol"; recipient := "alice"; amount := 1;
     signature := "forged" |}.

(** Block objects 1 to 6. *)
Definition genesis : Block :=
  {| transactions := []; previousHash := None; nonce := 7;
     hash := digest "null7" |}.

Definition second : Block :=
  {| transactions := [10%positive; 11%positive];
     previousHash := Some (digest "null7"); nonce := 3;
     hash := digest (digest "null7" +:+ sign "alice" "alicebob5"
                     +:+ sign "bob" "bobcarol2" +:+ "3") |}.

Definition third : Block :=
  {| transactions := [];
     previousHash := Some (hash second); nonce := 4;
     hash := digest (hash second +:+ "4") |}.

(** A block that is valid on its own but links to no block of the store. *)
Definition stray : Block :=
  {| transactions := [10%positive];
     previousHash := Some "elsewhere"; nonce := 1;
     hash := digest ("elsewhere" +:+ sign "alice" "alicebob5" +:+ "1") |}.

(** A block whose stored hash is not the digest of its content. *)
Definition altered : Block :=
  {| transactions := [10%positive];
     previousHash := Some (digest "null7"); nonce := 3;
     hash := digest "something else" |}.

(** A genesis block holding the transaction object that [second] holds
    first. *)
Definition sharing_genesis : Block :=
  {| transactions := [10%positive]; previousHash := None; nonce := 7;
     hash := digest ("null" +:+ sign "alice" "alicebob5" +:+ "7") |}.

Definition ledger : store :=
  {| txs := {[ 10%positive := alice_pays_bob; 11%positive := bob_pays_carol;
               12%positive := negative; 13%positive := unsigned ]};
     blks := {[ 1%positive := genesis; 2%positive := second;
                3%positive := third; 4%positive := stray;
                5%positive := altered; 6%positive := sharing_genesis ]};
     verify_calls := [] |}.

Definition chain : Blockchain :=
  {| blocks := [1%positive; 2%positive; 3%positive] |}.

Definition unlinked_chain : Blockchain :=
  {| blocks := [1%positive; 4%positive] |}.

Definition genesis_only : Blockchain := {| blocks := [1%positive] |}.

Definition empty_second : Blockchain :=
  {| blocks := [1%positive; 3%positive] |}.

Definition sharing_chain : Blockchain :=
  {| blocks := [6%positive; 2%positive] |}.

(** A chain that starts at a block that is no genesis block. *)
Definition headless : Blockchain :=
  {| blocks := [2%positive; 3%positive] |}.

(** The ledger with one transaction object replaced, one that [second]
    does not hold. *)
Definition other_ledger : store :=
  {| txs := <[12%positive := unsigned]> (txs ledger);
     blks := blks ledger; verify_calls := [("k", "m", "s")] |}.

(** Two transactions with one signed message. *)
Definition two_to_bob1 : Transaction :=
  {| source := "alice"; recipient := "bob" +:+ "1"; amount := 2;
     signature := sign "alice" "alicebob12" |}.

Definition twelve_to_bob : Transaction :=
  {| source := "alice"; recipient := "bob"; amount := 12;
     signature := sign "alice" "alicebob12" |}.

Definition ambiguous_ledger : store :=
  {| txs := {[ 1%positive := two_to_bob1; 2%positive := twelve_to_bob ]};
     blks := ∅; verify_calls := [] |}.

(** A block whose second element refers to no transaction object, and
    whose stored hash is arbitrary. *)
Definition hollow : Block :=
  {| transactions := [10%positive; 99%positive];
     previousHash := None; nonce := 0; hash := "anything" |}.

Definition hollow_ledger : store :=
  {| txs := {[ 10%positive := alice_pays_bob ]};
     blks := {[ 1%positive := hollow ]}; verify_calls := [] |}.

End Demo.

Section Validation.

(** [signing.verify(publicKey, message, signature)]: it returns a boolean or
    throws. *)
Variable verify : string -> string -> string -> completion bool.

(** [createHash('sha512').update(s).digest('hex')]. *)
Variable sha512_hex : string -> string.

Definition record_call (s : store) (c : verify_call) : store :=
  {| txs := txs s; blks := blks s; verify_calls := verify_calls s ++ [c] |}.

Definition signing_verify (publicKey message sig : string) : M bool :=
  fun s => (verify publicKey message sig,
            record_call s (publicKey, message, sig)).

(** ** The module *)

Definition isValidTransaction (transaction : loc) : M bool :=
  amt ← tx_get amount (Some transaction);
  if amt <? 0 then mret false else
  src ← tx_get source (Some transaction);
  rcp ← tx_get recipient (Some transaction);
  amt' ← tx_get amount (Some transaction);
  let sum := src +:+ rcp +:+ Number_toString amt' in
  pk ← tx_get source (Some transaction);
  sig ← tx_get signature (Some transaction);
  signing_verify pk sum sig.

Definition isValidBlock (block : loc) : M bool :=
  ts ← blk_get transactions (Some block);
  sigs ← Array_map (fun t => tx_get signature (Some t)) ts;
  let transactionString := join "" sigs in
  prev ← blk_get previousHash (Some block);
  n ← blk_get nonce (Some block);
  let sumHash := ToString_nullable prev +:+ transactionString
                 +:+ Number_toString n in
  h ← blk_get hash (Some block);
  if negb (String.eqb h (sha512_hex sumHash)) then mret false else
  ts' ← blk_get transactions (Some block);
  every isValidTransaction ts'.

Definition isValidChain (blockchain : Blockchain) : M bool :=
  let blocks := blocks blockchain in
  prev0 ← blk_get previousHash (blocks !! 0%nat);
  if not_null prev0 then mret false else
  unlinked ← some (fun b i =>
                     prev ← blk_get previousHash (Some b);
                     h ← blk_get hash (blocks !! i);
                     mret (strict_neq prev h))
                  (slice 1 blocks);
  if unlinked : bool then mret false else
  invalid ← some (fun b _ => ok ← isValidBlock b; mret (negb ok)) blocks;
  if invalid : bool then mret false else
  tss ← Array_map (fun b => blk_get transactions (Some b)) blocks;
  every isValidTransaction
        (reduce (fun flat transactions => flat ++ transactions) [] tss).

Definition breakChain (blockchain : Blockchain) : M unit :=
  ts ← blk_get transactions (blocks blockchain !! 1%nat);
  tx_set_amount (ts !! 0%nat) 999999999.

(** The variant of [isValidChain] that stops after the per-block check:
    the genesis check, the hash-linkage check and the per-block check, and
    no pass over the flattened transactions. *)
Definition isValidChain_without_flattened_check (blockchain : Blockchain)
  : M bool :=
  let blocks := blocks blockchain in
  prev0 ← blk_get previousHash (blocks !! 0%nat);
  if not_null prev0 then mret false else
  unlinked ← some (fun b i =>
                     prev ← blk_get previousHash (Some b);
                     h ← blk_get hash (blocks !! i);
                     mret (strict_neq prev h))
                  (slice 1 blocks);
  if unlinked : bool then mret false else
  invalid ← some (fun b _ => ok ← isValidBlock b; mret (negb ok)) blocks;
  if invalid : bool then mret false else
  mret true.

(** ** What a specification says about a store *)

(** The objects of a store: everything but the record of collaborator
    calls. *)
Definition same_objects (s s' : store) : Prop :=
  txs s = txs s' /\ blks s = blks s'.

(** A computation that only observes: it leaves every object as it found
    it, and what it returns depends on the objects alone. *)
Definition observer {A} (m : M A) : Prop :=
  forall s,
    same_objects s (final (m s)) /\
    forall s', same_objects s s' -> result (m s') = result (m s).

(** The digest [isValidBlock] compares the stored hash with, for a block
    whose transactions are the objects [objs]. *)
Definition block_digest (b : Block) (objs : list Transaction) : string :=
  sha512_hex (ToString_nullable (previousHash b)
              +:+ join "" (signature <$> objs)
              +:+ Number_toString (nonce b)).

(** The message [isValidTransaction] hands to the collaborator. *)
Definition signed_message (t : Transaction) : string :=
  source t +:+ recipient t +:+ Number_toString (amount t).

(** The transaction objects an array of references holds, when each of
    its elements is one. *)
Definition tx_objects (s : store) (ts : list loc) : option (list Transaction) :=
  mapM (txs s !!.) ts.

(** The block objects an array of references holds, when each of its
    elements is one. *)
Definition blk_objects (s : store) (bs : list loc) : option (list Block) :=
  mapM (blks s !!.) bs.

(** The call [isValidTransaction] makes for a transaction object it does
    not reject for its amount. *)
Definition call_of (t : Transaction) : verify_call :=
  (source t, signed_message t, signature t).

(** A store with further collaborator calls recorded, and the same
    objects. *)
Definition record_calls (s : store) (cs : list verify_call) : store :=
  {| txs := txs s; blks := blks s; verify_calls := verify_calls s ++ cs |}.

(** A transaction object that passes: its amount is not negative and the
    collaborator accepts its signature over [source + recipient + amount]. *)
Definition tx_passes (t : Transaction) : Prop :=
  0 <= amount t /\
  verify (source t) (signed_message t) (signature t) = Normal true.

(** A block object that passes: its transactions are transaction objects,
    its stored hash is the digest of its content, and each transaction
    passes. *)
Definition block_passes (s : store) (b : Block) : Prop :=
  exists objs,
    tx_objects s (transactions b) = Some objs /\
    hash b = block_digest b objs /\
    Forall tx_passes objs.

(** Each block after the first stores the hash of the block before it. *)
Definition linked (objs : list Block) : Prop :=
  forall i p b,
    objs !! i = Some p -> objs !! S i = Some b ->
    previousHash b = Some (hash p).

(** A chain that passes: its blocks are block objects, there is a first
    one and its [previousHash] is [null], the blocks are linked, and each
    block passes. *)
Definition chain_passes (s : store) (blockchain : Blockchain) : Prop :=
  exists g rest,
    blk_objects s (blocks blockchain) = Some (g :: rest) /\
    previousHash g = None /\
    linked (g :: rest) /\
    Forall (block_passes s) (g :: rest).

(** The calls one pass over the transactions of a block makes, in order,
    when each passes. *)
Definition block_calls (s : store) (b : Block) : list verify_call :=
  match tx_objects s (transactions b) with
  | Some objs => call_of <$> objs
  | None => []
  end.

(** The calls one pass over the transactions of the blocks [objs] makes,
    in order. *)
Definition chain_calls (s : store) (objs : list Block) : list verify_call :=
  concat (block_calls s <$> objs).

(** A computation that reads objects and does nothing else: it leaves the
    store, its record of collaborator calls included, as it found it. *)
Definition reader {A} (m : M A) : Prop :=
  forall s, final (m s) = s.

(** The last two steps of [isValidChain]: the per-block gate says whether
    some block is invalid, and the flattened pass checks the transactions
    of all blocks. *)
Definition block_gate (blocks : list loc) : M bool :=
  some (fun b _ => ok ← isValidBlock b; mret (negb ok)) blocks.

Definition flattened_pass (blocks : list loc) : M bool :=
  tss ← Array_map (fun b => blk_get transactions (Some b)) blocks;
  every isValidTransaction
        (reduce (fun flat transactions => flat ++ transactions) [] tss).

(** The store [breakChain] leaves when the transaction object it writes
    to is at [l] and was [t]. *)
Definition tampered (s : store) (l : loc) (t : Transaction) : store :=
  with_txs s (<[l := with_amount t 999999999]> (txs s)).

(** ** The monad *)

Lemma bind_normal {A B} (m : M A) (f : A -> M B) s a s' :
  m s = (Normal a, s') -> (m ≫= f) s = f a s'.
Proof. intros E. unfold mbind, M_bind. now rewrite E. Qed.

Lemma bind_throw {A B} (m : M A) (f : A -> M B) s e s' :
  m s = (Throw e, s') -> (m ≫= f) s = (Throw e, s').
Proof. intros E. unfold mbind, M_bind. now rewrite E. Qed.

Lemma same_objects_refl s : same_objects s s.
Proof. now split. Qed.

Lemma same_objects_sym s s' : same_objects s s' -> same_objects s' s.
Proof. intros [? ?]. now split. Qed.

Lemma same_objects_trans s1 s2 s3 :
  same_objects s1 s2 -> same_objects s2 s3 -> same_objects s1 s3.
Proof. intros [? ?] [? ?]. split; congruence. Qed.

Lemma observer_result {A} (m : M A) s s' :
  observer m -> same_objects s s' -> result (m s') = result (m s).
Proof. intros Hm. now apply (Hm s). Qed.

Lemma observer_final {A} (m : M A) s :
  observer m -> same_objects s (final (m s)).
Proof. intros Hm. apply (Hm s). Qed.

Lemma observer_ret {A} (a : A) : observer (mret a).
Proof. intros s. split; [apply same_objects_refl | reflexivity]. Qed.

Lemma observer_bind {A B} (m : M A) (f : A -> M B) :
  observer m -> (forall a, observer (f a)) -> observer (m ≫= f).
Proof.
  intros Hm Hf s. destruct (Hm s) as [Hs Hr].
  destruct (m s) as [[a|e] s1] eqn:E; cbn [final snd result fst] in *.
  - rewrite (bind_normal _ _ _ _ _ E). split.
    + eapply same_objects_trans; [exact Hs | apply Hf].
    + intros s' Hss'. specialize (Hr s' Hss').
      destruct (Hm s') as [Hs' _].
      destruct (m s') as [r' s1'] eqn:E'; cbn [final snd result fst] in *.
      subst r'. rewrite (bind_normal _ _ _ _ _ E').
      apply Hf. eapply same_objects_trans; [apply same_objects_sym, Hs|].
      eapply same_objects_trans; [exact Hss' | exact Hs'].
  - rewrite (bind_throw _ _ _ _ _ E). split; [exact Hs|].
    intros s' Hss'. specialize (Hr s' Hss').
    destruct (m s') as [r' s1'] eqn:E'; cbn [result fst] in *.
    subst r'. now rewrite (bind_throw _ _ _ _ _ E').
Qed.

Lemma observer_if {A} (c : bool) (m1 m2 : M A) :
  observer m1 -> observer m2 -> observer (if c then m1 else m2).
Proof. now destruct c. Qed.

(** ** Property reads *)

Lemma tx_get_obj {A} (f : Transaction -> A) l s t :
  txs s !! l = Some t -> tx_get f (Some l) s = (Normal (f t), s).
Proof. intros E. unfold tx_get. cbn. now rewrite E. Qed.

Lemma tx_get_no_obj {A} (f : Transaction -> A) l s :
  txs s !! l = None -> tx_get f (Some l) s = (Throw TypeError, s).
Proof. intros E. unfold tx_get. cbn. now rewrite E. Qed.

Lemma blk_get_obj {A} (f : Block -> A) l s b :
  blks s !! l = Some b -> blk_get f (Some l) s = (Normal (f b), s).
Proof. intros E. unfold blk_get. cbn. now rewrite E. Qed.

Lemma blk_get_no_obj {A} (f : Block -> A) l s :
  blks s !! l = None -> blk_get f (Some l) s = (Throw TypeError, s).
Proof. intros E. unfold blk_get. cbn. now rewrite E. Qed.

Lemma observer_tx_get {A} (f : Transaction -> A) v : observer (tx_get f v).
Proof.
  intros s. unfold tx_get. split.
  - destruct (v ≫= _); apply same_objects_refl.
  - intros s' [Ht _]. rewrite <- Ht. now destruct (v ≫= _).
Qed.

Lemma observer_blk_get {A} (f : Block -> A) v : observer (blk_get f v).
Proof.
  intros s. unfold blk_get. split.
  - destruct (v ≫= _); apply same_objects_refl.
  - intros s' [_ Hb]. rewrite <- Hb. now destruct (v ≫= _).
Qed.

Lemma observer_signing_verify pk msg sig :
  observer (signing_verify pk msg sig).
Proof. intros s. split; [now split | reflexivity]. Qed.

(** ** Array methods over observers *)

Lemma observer_every {A} (cb : A -> M bool) xs :
  (forall x, observer (cb x)) -> observer (every cb xs).
Proof.
  intros Hcb. induction xs as [|x xs IH]; cbn [every].
  - apply observer_ret.
  - apply observer_bind; [apply Hcb|].
    intros ok. apply observer_if; [exact IH | apply observer_ret].
Qed.

Lemma observer_some_from {A} (cb : A -> nat -> M bool) xs i :
  (forall x j, observer (cb x j)) -> observer (some_from cb i xs).
Proof.
  intros Hcb. revert i. induction xs as [|x xs IH]; intros i; cbn [some_from].
  - apply observer_ret.
  - apply observer_bind; [apply Hcb|].
    intros hit. apply observer_if; [apply observer_ret | apply IH].
Qed.

Lemma observer_Array_map {A B} (cb : A -> M B) xs :
  (forall x, observer (cb x)) -> observer (Array_map cb xs).
Proof.
  intros Hcb. induction xs as [|x xs IH]; cbn [Array_map].
  - apply observer_ret.
  - apply observer_bind; [apply Hcb|]. intros y.
    apply observer_bind; [exact IH|]. intros ys. apply observer_ret.
Qed.

(** [every] over observers accepts exactly when the callback accepts each
    element, each taken on its own against the same objects. *)
Lemma every_accepts {A} (cb : A -> M bool) xs s :
  (forall x, observer (cb x)) ->
  result (every cb xs s) = Normal true <->
  (forall x, x ∈ xs -> result (cb x s) = Normal true).
Proof.
  intros Hcb. revert s. induction xs as [|x xs IH]; intros s; cbn [every].
  - split; [|reflexivity]. intros _ x Hx. inversion Hx.
  - destruct (Hcb x s) as [Hs _].
    destruct (cb x s) as [[[|]|e] s1] eqn:E; cbn [final snd] in Hs.
    + rewrite (bind_normal _ _ _ _ _ E), IH. split.
      * intros H y Hy. apply elem_of_cons in Hy as [->|Hy].
        -- now rewrite E.
        -- rewrite <- (H y Hy). symmetry. now apply observer_result.
      * intros H y Hy. rewrite <- (H y); [|now apply elem_of_cons; right].
        now apply observer_result.
    + rewrite (bind_normal _ _ _ _ _ E). cbn. split; [discriminate|].
      intros H. specialize (H x (list_elem_of_here _ _)).
      rewrite E in H. discriminate.
    + rewrite (bind_throw _ _ _ _ _ E). cbn. split; [discriminate|].
      intros H. specialize (H x (list_elem_of_here _ _)).
      rewrite E in H. discriminate.
Qed.

(** [some] over observers that ignore the index rejects exactly when the
    callback rejects each element. *)
Lemma some_rejects {A} (g : A -> M bool) xs i s :
  (forall x, observer (g x)) ->
  result (some_from (fun x _ => g x) i xs s) = Normal false <->
  (forall x, x ∈ xs -> result (g x s) = Normal false).
Proof.
  intros Hg. revert i s.
  induction xs as [|x xs IH]; intros i s; cbn [some_from].
  - split; [|reflexivity]. intros _ x Hx. inversion Hx.
  - destruct (Hg x s) as [Hs _].
    destruct (g x s) as [[[|]|e] s1] eqn:E; cbn [final snd] in Hs.
    + rewrite (bind_normal _ _ _ _ _ E). cbn. split; [discriminate|].
      intros H. specialize (H x (list_elem_of_here _ _)).
      rewrite E in H. discriminate.
    + rewrite (bind_normal _ _ _ _ _ E), IH. split.
      * intros H y Hy. apply elem_of_cons in Hy as [->|Hy].
        -- now rewrite E.
        -- rewrite <- (H y Hy). symmetry. now apply observer_result.
      * intros H y Hy. rewrite <- (H y); [|now apply elem_of_cons; right].
        now apply observer_result.
    + rewrite (bind_throw _ _ _ _ _ E). cbn. split; [discriminate|].
      intros H. specialize (H x (list_elem_of_here _ _)).
      rewrite E in H. discriminate.
Qed.

(** ** Reading arrays of objects *)

Lemma tx_objects_cons s t ts objs :
  tx_objects s (t :: ts) = Some objs <->
  exists o os, objs = o :: os /\ txs s !! t = Some o /\ tx_objects s ts = Some os.
Proof.
  unfold tx_objects. cbn [mapM]. destruct (txs s !! t) as [o|]; cbn.
  - destruct (mapM _ ts) as [os|]; cbn.
    + split; [intros [= <-]; eauto | intros (?&?&->&[= <-]&[= <-]); auto].
    + split; [discriminate | intros (?&?&_&_&?); discriminate].
  - split; [discriminate | intros (?&?&_&?&_); discriminate].
Qed.

Lemma blk_objects_cons s b bs objs :
  blk_objects s (b :: bs) = Some objs <->
  exists o os, objs = o :: os /\ blks s !! b = Some o /\ blk_objects s bs = Some os.
Proof.
  unfold blk_objects. cbn [mapM]. destruct (blks s !! b) as [o|]; cbn.
  - destruct (mapM _ bs) as [os|]; cbn.
    + split; [intros [= <-]; eauto | intros (?&?&->&[= <-]&[= <-]); auto].
    + split; [discriminate | intros (?&?&_&_&?); discriminate].
  - split; [discriminate | intros (?&?&_&?&_); discriminate].
Qed.

Lemma map_tx_get_objs {A} (f : Transaction -> A) ts s objs :
  tx_objects s ts = Some objs ->
  Array_map (fun t => tx_get f (Some t)) ts s = (Normal (f <$> objs), s).
Proof.
  revert objs. induction ts as [|t ts IH]; intros objs H.
  - injection H as <-. reflexivity.
  - apply tx_objects_cons in H as (o & os & -> & Ho & Hos).
    cbn [Array_map]. rewrite (bind_normal _ _ _ _ _ (tx_get_obj f _ _ _ Ho)).
    now rewrite (bind_normal _ _ _ _ _ (IH _ Hos)).
Qed.

Lemma map_tx_get_missing {A} (f : Transaction -> A) ts s :
  tx_objects s ts = None ->
  Array_map (fun t => tx_get f (Some t)) ts s = (Throw TypeError, s).
Proof.
  induction ts as [|t ts IH]; intros H; [discriminate|].
  cbn [Array_map]. destruct (txs s !! t) as [o|] eqn:Ho.
  - rewrite (bind_normal _ _ _ _ _ (tx_get_obj f _ _ _ Ho)).
    destruct (tx_objects s ts) as [os|] eqn:Hos.
    + unfold tx_objects in *. cbn [mapM] in H. rewrite Ho, Hos in H.
      discriminate.
    + now rewrite (bind_throw _ _ _ _ _ (IH eq_refl)).
  - now rewrite (bind_throw _ _ _ _ _ (tx_get_no_obj f _ _ Ho)).
Qed.

Lemma map_blk_get_objs {A} (f : Block -> A) bs s objs :
  blk_objects s bs = Some objs ->
  Array_map (fun b => blk_get f (Some b)) bs s = (Normal (f <$> objs), s).
Proof.
  revert objs. induction bs as [|b bs IH]; intros objs H.
  - injection H as <-. reflexivity.
  - apply blk_objects_cons in H as (o & os & -> & Ho & Hos).
    cbn [Array_map]. rewrite (bind_normal _ _ _ _ _ (blk_get_obj f _ _ _ Ho)).
    now rewrite (bind_normal _ _ _ _ _ (IH _ Hos)).
Qed.

(** ** [isValidTransaction] *)

Lemma isValidTransaction_obj transaction s t :
  txs s !! transaction = Some t ->
  isValidTransaction transaction s =
    if amount t <? 0 then (Normal false, s)
    else (verify (source t) (signed_message t) (signature t),
          record_call s (source t, signed_message t, signature t)).
Proof.
  intros Ht. unfold isValidTransaction.
  rewrite (bind_normal _ _ _ _ _ (tx_get_obj amount _ _ _ Ht)).
  destruct (amount t <? 0); [reflexivity|].
  rewrite (bind_normal _ _ _ _ _ (tx_get_obj source _ _ _ Ht)).
  rewrite (bind_normal _ _ _ _ _ (tx_get_obj recipient _ _ _ Ht)).
  rewrite (bind_normal _ _ _ _ _ (tx_get_obj amount _ _ _ Ht)).
  cbv zeta.
  rewrite (bind_normal _ _ _ _ _ (tx_get_obj source _ _ _ Ht)).
  rewrite (bind_normal _ _ _ _ _ (tx_get_obj signature _ _ _ Ht)).
  reflexivity.
Qed.

Lemma observer_isValidTransaction transaction :
  observer (isValidTransaction transaction).
Proof.
  unfold isValidTransaction.
  apply observer_bind; [apply observer_tx_get|]. intros amt.
  apply observer_if; [apply observer_ret|].
  repeat (apply observer_bind; [apply observer_tx_get|]; intros ?).
  apply observer_signing_verify.
Qed.

(** ** [isValidBlock] *)

Lemma isValidBlock_obj block s b objs :
  blks s !! block = Some b ->
  tx_objects s (transactions b) = Some objs ->
  isValidBlock block s =
    if String.eqb (hash b) (block_digest b objs)
    then every isValidTransaction (transactions b) s
    else (Normal false, s).
Proof.
  intros Hb Hobjs. unfold isValidBlock.
  rewrite (bind_normal _ _ _ _ _ (blk_get_obj transactions _ _ _ Hb)).
  rewrite (bind_normal _ _ _ _ _ (map_tx_get_objs signature _ _ _ Hobjs)).
  cbv zeta.
  rewrite (bind_normal _ _ _ _ _ (blk_get_obj previousHash _ _ _ Hb)).
  rewrite (bind_normal _ _ _ _ _ (blk_get_obj nonce _ _ _ Hb)).
  rewrite (bind_normal _ _ _ _ _ (blk_get_obj hash _ _ _ Hb)).
  fold (block_digest b objs).
  destruct (String.eqb (hash b) (block_digest b objs)); cbn [negb];
    [|reflexivity].
  now rewrite (bind_normal _ _ _ _ _ (blk_get_obj transactions _ _ _ Hb)).
Qed.

Lemma observer_isValidBlock block : observer (isValidBlock block).
Proof.
  unfold isValidBlock.
  apply observer_bind; [apply observer_blk_get|]. intros ts.
  apply observer_bind;
    [apply observer_Array_map; intros; apply observer_tx_get|]. intros sigs.
  repeat (apply observer_bind; [apply observer_blk_get|]; intros ?).
  apply observer_if; [apply observer_ret|].
  apply observer_bind; [apply observer_blk_get|]. intros ts'.
  apply observer_every, observer_isValidTransaction.
Qed.

(** A block [isValidBlock] accepts is a block object, and each of its
    transactions passes [isValidTransaction]. *)
Lemma isValidBlock_accepts block s :
  result (isValidBlock block s) = Normal true ->
  exists b, blks s !! block = Some b /\
    forall t, t ∈ transactions b ->
      result (isValidTransaction t s) = Normal true.
Proof.
  intros H. destruct (blks s !! block) as [b|] eqn:Hb.
  - exists b. split; [reflexivity|].
    destruct (tx_objects s (transactions b)) as [objs|] eqn:Hobjs.
    + rewrite (isValidBlock_obj _ _ _ _ Hb Hobjs) in H.
      destruct (String.eqb _ _); [|discriminate].
      exact (proj1 (every_accepts _ _ _ observer_isValidTransaction) H).
    + unfold isValidBlock in H.
      rewrite (bind_normal _ _ _ _ _ (blk_get_obj transactions _ _ _ Hb)) in H.
      rewrite (bind_throw _ _ _ _ _ (map_tx_get_missing signature _ _ Hobjs))
        in H.
      discriminate.
  - unfold isValidBlock in H.
    rewrite (bind_throw _ _ _ _ _ (blk_get_no_obj transactions _ _ Hb)) in H.
    discriminate.
Qed.

(** ** [isValidChain] *)

Lemma strict_neq_true prev h : strict_neq prev h = true <-> prev <> Some h.
Proof.
  destruct prev as [p|]; cbn; [|split; [discriminate | reflexivity]].
  rewrite negb_true_iff. destruct (String.eqb_spec p h) as [->|Hne].
  - split; [discriminate | intros H; now destruct H].
  - split; [intros _ [= ->]; now destruct Hne | reflexivity].
Qed.

(** [some] finds an element its callback accepts, when the callback reads
    without writing up to there. *)
Lemma some_from_finds {A} (cb : A -> nat -> M bool) xs i s :
  (forall j x, xs !! j = Some x -> exists v, cb x (i + j)%nat s = (Normal v, s)) ->
  (exists j x, xs !! j = Some x /\ cb x (i + j)%nat s = (Normal true, s)) ->
  some_from cb i xs s = (Normal true, s).
Proof.
  revert i. induction xs as [|x xs IH]; intros i Hall (j & y & Hj & Hy).
  - discriminate.
  - cbn [some_from]. destruct (Hall 0%nat x eq_refl) as [v Hv].
    rewrite Nat.add_0_r in Hv.
    rewrite (bind_normal _ _ _ _ _ Hv). destruct v; [reflexivity|].
    apply IH.
    + intros j' x' Hj'. replace (S i + j')%nat with (i + S j')%nat by lia.
      now apply Hall.
    + destruct j as [|j'].
      * injection Hj as <-. rewrite Nat.add_0_r, Hv in Hy. discriminate.
      * exists j', y. split; [exact Hj|].
        now replace (S i + j')%nat with (i + S j')%nat by lia.
Qed.

Lemma blk_objects_lookup s bs objs i :
  blk_objects s bs = Some objs ->
  forall o, objs !! i = Some o <->
            exists r, bs !! i = Some r /\ blks s !! r = Some o.
Proof.
  intros H. apply mapM_Some in H. intros o. split.
  - intros Ho. destruct (Forall2_lookup_r _ _ _ _ _ H Ho) as (r & Hr & Hro).
    eauto.
  - intros (r & Hr & Hro).
    destruct (Forall2_lookup_l _ _ _ _ _ H Hr) as (o' & Ho' & Hro').
    congruence.
Qed.

Lemma blk_objects_defined s bs objs i r :
  blk_objects s bs = Some objs -> bs !! i = Some r ->
  exists o, objs !! i = Some o /\ blks s !! r = Some o.
Proof.
  intros H Hr. apply mapM_Some in H.
  destruct (Forall2_lookup_l _ _ _ _ _ H Hr) as (o & Ho & Hro). eauto.
Qed.

Lemma observer_isValidChain blockchain : observer (isValidChain blockchain).
Proof.
  unfold isValidChain. cbv zeta.
  apply observer_bind; [apply observer_blk_get|]. intros prev0.
  apply observer_if; [apply observer_ret|].
  apply observer_bind.
  { apply observer_some_from. intros b i.
    repeat (apply observer_bind; [apply observer_blk_get|]; intros ?).
    apply observer_ret. }
  intros unlinked. apply observer_if; [apply observer_ret|].
  apply observer_bind.
  { apply observer_some_from. intros b i.
    apply observer_bind; [apply observer_isValidBlock|]. intros ?.
    apply observer_ret. }
  intros invalid. apply observer_if; [apply observer_ret|].
  apply observer_bind;
    [apply observer_Array_map; intros; apply observer_blk_get|]. intros tss.
  apply observer_every, observer_isValidTransaction.
Qed.

(** The first two gates of [isValidChain], on a chain of block objects one
    of whose links is broken. *)
Lemma linkage_gate_finds blocks s objs i p b :
  blk_objects s blocks = Some objs ->
  objs !! i = Some p -> objs !! S i = Some b ->
  previousHash b <> Some (hash p) ->
  some (fun b i =>
          prev ← blk_get previousHash (Some b);
          h ← blk_get hash (blocks !! i);
          mret (strict_neq prev h))
       (slice 1 blocks) s = (Normal true, s).
Proof.
  intros Hobjs Hp Hb Hne. unfold some, slice. apply some_from_finds.
  - intros j x Hx. rewrite lookup_drop in Hx. cbn in Hx.
    cbn beta. change (0 + j)%nat with j.
    destruct (blk_objects_defined _ _ _ _ _ Hobjs Hx) as (o & _ & Ho).
    destruct (blocks !! j) as [r|] eqn:Hr.
    + destruct (blk_objects_defined _ _ _ _ _ Hobjs Hr) as (o' & _ & Ho').
      eexists.
      rewrite (bind_normal _ _ _ _ _ (blk_get_obj previousHash _ _ _ Ho)).
      rewrite (bind_normal _ _ _ _ _ (blk_get_obj hash _ _ _ Ho')).
      reflexivity.
    + apply lookup_ge_None in Hr. apply lookup_lt_Some in Hx. lia.
  - apply (blk_objects_lookup _ _ _ i Hobjs) in Hp as (rp & Hrp & Hop).
    apply (blk_objects_lookup _ _ _ (S i) Hobjs) in Hb as (rb & Hrb & Hob).
    exists i, rb. split; [now rewrite lookup_drop|].
    cbn beta. change (0 + i)%nat with i.
    rewrite (bind_normal _ _ _ _ _ (blk_get_obj previousHash _ _ _ Hob)).
    rewrite Hrp.
    rewrite (bind_normal _ _ _ _ _ (blk_get_obj hash _ _ _ Hop)).
    cbn. now rewrite (proj2 (strict_neq_true _ _) Hne).
Qed.

(** Two computations that differ only in how they go on return the same,
    when the continuations return the same wherever the first part
    arrives. *)
Lemma bind_result_ext {A B} (m : M A) (f g : A -> M B) s :
  (forall a s', m s = (Normal a, s') -> result (f a s') = result (g a s')) ->
  result ((m ≫= f) s) = result ((m ≫= g) s).
Proof.
  intros H. destruct (m s) as [[a|e] s'] eqn:E.
  - rewrite !(bind_normal _ _ _ _ _ E). now apply H.
  - now rewrite !(bind_throw _ _ _ _ _ E).
Qed.

Lemma negated_rejects (m : M bool) s :
  result ((ok ← m; mret (negb ok)) s) = Normal false ->
  result (m s) = Normal true.
Proof.
  destruct (m s) as [[[|]|e] s'] eqn:E.
  - reflexivity.
  - rewrite (bind_normal _ _ _ _ _ E). discriminate.
  - rewrite (bind_throw _ _ _ _ _ E). discriminate.
Qed.

Lemma elem_of_flattened {A} (x : A) (tss : list (list A)) acc :
  x ∈ reduce (fun flat ts => flat ++ ts) acc tss ->
  x ∈ acc \/ exists ts, ts ∈ tss /\ x ∈ ts.
Proof.
  unfold reduce. revert acc.
  induction tss as [|ts tss IH]; intros acc H; cbn [fold_left] in H.
  - now left.
  - apply IH in H as [H|(ts' & Hts' & Hx)].
    + apply elem_of_app in H as [H|H]; [now left|].
      right. exists ts. split; [apply list_elem_of_here | exact H].
    + right. exists ts'. split; [now apply list_elem_of_further | exact Hx].
Qed.

(** When every element of an array is a block object with a property,
    the array resolves to objects that all have it. *)
Lemma blk_objects_of_all s bs (P : Block -> Prop) :
  (forall r, r ∈ bs -> exists o, blks s !! r = Some o /\ P o) ->
  exists objs, blk_objects s bs = Some objs /\ forall o, o ∈ objs -> P o.
Proof.
  induction bs as [|r bs IH]; intros H.
  - exists []. split; [reflexivity|]. intros o Ho. inversion Ho.
  - destruct (H r (list_elem_of_here _ _)) as (o & Ho & HP).
    destruct IH as (os & Hos & HPs).
    { intros r' Hr'. apply H. now apply list_elem_of_further. }
    exists (o :: os). split.
    + apply blk_objects_cons. eauto.
    + intros o' Ho'. apply elem_of_cons in Ho' as [->|Ho']; auto.
Qed.

(** Past the per-block gate, the pass over the flattened transactions
    accepts. *)
Lemma flattened_check_accepts blocks s :
  (forall r, r ∈ blocks -> result (isValidBlock r s) = Normal true) ->
  result ((tss ← Array_map (fun b => blk_get transactions (Some b)) blocks;
           every isValidTransaction
                 (reduce (fun flat transactions => flat ++ transactions)
                         [] tss)) s)
  = Normal true.
Proof.
  intros Hall.
  destruct (blk_objects_of_all s blocks
              (fun o => forall t, t ∈ transactions o ->
                 result (isValidTransaction t s) = Normal true))
    as (objs & Hobjs & Hvalid).
  { intros r Hr. apply isValidBlock_accepts. now apply Hall. }
  rewrite (bind_normal _ _ _ _ _ (map_blk_get_objs transactions _ _ _ Hobjs)).
  apply every_accepts; [apply observer_isValidTransaction|].
  intros t Ht. apply elem_of_flattened in Ht as [Ht|(ts & Hts & Ht)].
  - inversion Ht.
  - apply list_elem_of_fmap in Hts as (o & -> & Ho). now apply (Hvalid o).
Qed.

(** ** [breakChain] *)

Lemma breakChain_writes blockchain s r1 b1 l ls t :
  blocks blockchain !! 1%nat = Some r1 ->
  blks s !! r1 = Some b1 ->
  transactions b1 = l :: ls ->
  txs s !! l = Some t ->
  breakChain blockchain s
  = (Normal tt, with_txs s (<[l := with_amount t 999999999]> (txs s))).
Proof.
  intros Hr1 Hb1 Hts Ht. unfold breakChain. rewrite Hr1.
  rewrite (bind_normal _ _ _ _ _ (blk_get_obj transactions _ _ _ Hb1)).
  rewrite Hts. cbn. now rewrite Ht.
Qed.

(** ** Numbers as strings *)

(** Up to [2^53] every integer is a double and is printed digit for
    digit. *)
Lemma Number_toString_safe n :
  0 <= n < 2 ^ 53 -> Number_toString n = decimal n.
Proof.
  intros [Hlo Hhi]. unfold Number_toString, Number_toString_abs.
  rewrite (proj2 (Z.ltb_ge n 0) Hlo).
  assert (Hround : round_to_double n = n).
  { unfold round_to_double.
    destruct (Z.eq_dec n 0) as [->|Hn]; [reflexivity|].
    assert (Z.log2 n < 53) by (apply Z.log2_lt_pow2; lia).
    now rewrite (proj2 (Z.leb_le (Z.log2 n + 1) 53)) by lia. }
  cbv zeta. rewrite Hround.
  rewrite (proj2 (Z.leb_gt (2 ^ 1024) n)) by lia.
  rewrite (proj2 (Z.ltb_lt n (2 ^ 53)) Hhi).
  now rewrite (proj2 (Z.ltb_lt n (10 ^ 21))) by lia.
Qed.

(** ** The specification's claims about the validators *)

(** C1 (the code departs from the claim).  On a blockchain whose [blocks]
    array is empty, [isValidChain] does not return [false]: the read
    [blocks[0].previousHash] of its first gate is a property access on
    [undefined], and the call throws [TypeError], leaving the store as it
    was. *)
Theorem isValidChain_empty_throws s :
  isValidChain {| blocks := [] |} s = (Throw TypeError, s).
Proof. reflexivity. Qed.

(** C2.  For a block object whose transactions are transaction objects:
    when the stored [hash] differs from the SHA-512 hex digest of
    [previousHash + signatures joined in order + nonce], [isValidBlock]
    returns [false], whatever the transactions are, and the store, its
    record of collaborator calls included, is as before; when the stored
    hash equals that digest, [isValidBlock] returns [true] if and only if
    [isValidTransaction] returns [true] on each transaction of the block. *)
Theorem isValidBlock_hash_then_transactions block s b objs :
  blks s !! block = Some b ->
  tx_objects s (transactions b) = Some objs ->
  (hash b <> sha512_hex (ToString_nullable (previousHash b)
                         +:+ join "" (signature <$> objs)
                         +:+ Number_toString (nonce b)) ->
   isValidBlock block s = (Normal false, s)) /\
  (hash b = sha512_hex (ToString_nullable (previousHash b)
                        +:+ join "" (signature <$> objs)
                        +:+ Number_toString (nonce b)) ->
   (result (isValidBlock block s) = Normal true <->
    forall t, t ∈ transactions b ->
      result (isValidTransaction t s) = Normal true)).
Proof.
  intros Hb Hobjs. rewrite (isValidBlock_obj _ _ _ _ Hb Hobjs).
  unfold block_digest. split; intros Hh.
  - apply String.eqb_neq in Hh. now rewrite Hh.
  - apply String.eqb_eq in Hh. rewrite Hh.
    apply every_accepts, observer_isValidTransaction.
Qed.

(** C3.  On a transaction object whose [amount] is negative,
    [isValidTransaction] returns [false] whatever the other fields hold,
    and the store is as before: no call of the signature collaborator has
    been recorded, and the result is the same for every collaborator. *)
Theorem isValidTransaction_negative_amount transaction s t :
  txs s !! transaction = Some t ->
  amount t < 0 ->
  isValidTransaction transaction s = (Normal false, s).
Proof.
  intros Ht Hneg. rewrite (isValidTransaction_obj _ _ _ Ht).
  apply Z.ltb_lt in Hneg. now rewrite Hneg.
Qed.

(** C4.  On a transaction object whose [amount] is not negative,
    [isValidTransaction] completes exactly as the collaborator does on
    [(source, source + recipient + amount, signature)]; that call, and no
    other, is added to the record of collaborator calls, and no object
    changes. *)
Theorem isValidTransaction_delegates_to_verify transaction s t :
  txs s !! transaction = Some t ->
  0 <= amount t ->
  result (isValidTransaction transaction s)
  = verify (source t)
           (source t +:+ recipient t +:+ Number_toString (amount t))
           (signature t) /\
  verify_calls (final (isValidTransaction transaction s))
  = verify_calls s
    ++ [(source t,
         source t +:+ recipient t +:+ Number_toString (amount t),
         signature t)] /\
  same_objects s (final (isValidTransaction transaction s)).
Proof.
  intros Ht Hpos. rewrite (isValidTransaction_obj _ _ _ Ht).
  apply Z.ltb_ge in Hpos. rewrite Hpos. unfold signed_message.
  repeat split.
Qed.

(** C5.  On a chain of block objects in which some block at index [i + 1]
    (so the chain has at least two blocks) has a [previousHash] that is not
    the [hash] of the block at index [i], [isValidChain] returns [false],
    whatever the blocks and their transactions are otherwise, and the store
    is as before. *)
Theorem isValidChain_broken_link blockchain s objs i p b :
  blk_objects s (blocks blockchain) = Some objs ->
  objs !! i = Some p ->
  objs !! S i = Some b ->
  previousHash b <> Some (hash p) ->
  isValidChain blockchain s = (Normal false, s).
Proof.
  intros Hobjs Hp Hb Hne. unfold isValidChain. cbv zeta.
  destruct (blocks blockchain !! 0%nat) as [r0|] eqn:Hr0.
  - destruct (blk_objects_defined _ _ _ _ _ Hobjs Hr0) as (o0 & _ & Ho0).
    rewrite (bind_normal _ _ _ _ _ (blk_get_obj previousHash _ _ _ Ho0)).
    destruct (not_null (previousHash o0)); [reflexivity|].
    now rewrite (bind_normal _ _ _ _ _
                   (linkage_gate_finds _ _ _ _ _ _ Hobjs Hp Hb Hne)).
  - apply (blk_objects_lookup _ _ _ i Hobjs) in Hp as (rp & Hrp & _).
    apply lookup_ge_None in Hr0. apply lookup_lt_Some in Hrp. lia.
Qed.

(** C6.  On a block object whose [transactions] array is empty,
    [isValidBlock] returns normally, leaves the store as it was, and
    returns [true] exactly when the stored [hash] is the SHA-512 hex
    digest of [previousHash + '' + nonce]. *)
Theorem isValidBlock_no_transactions block s b :
  blks s !! block = Some b ->
  transactions b = [] ->
  exists v, isValidBlock block s = (Normal v, s) /\
    (v = true <->
     hash b = sha512_hex (ToString_nullable (previousHash b)
                          +:+ "" +:+ Number_toString (nonce b))).
Proof.
  intros Hb Hts.
  assert (Hobjs : tx_objects s (transactions b) = Some []) by now rewrite Hts.
  rewrite (isValidBlock_obj _ _ _ _ Hb Hobjs). unfold block_digest.
  rewrite Hts. cbn [fmap list_fmap join String.concat every].
  destruct (String.eqb_spec (hash b)
              (sha512_hex (ToString_nullable (previousHash b)
                           +:+ "" +:+ Number_toString (nonce b)))) as [E|E].
  - exists true. now split.
  - exists false. split; [reflexivity|]. split; [discriminate | tauto].
Qed.

(** C8.  Each validator is deterministic and writes no object.  Called
    twice in a row on the same argument, the second call starting from the
    store the first one left, it completes both times in the same way
    (the same boolean, or the same exception), and after each call every
    transaction object and every block object is as it was before the
    first.  The collaborator is a fixed function here. *)
Theorem validators_deterministic_and_pure s transaction block blockchain :
  (result (isValidTransaction transaction
             (final (isValidTransaction transaction s)))
   = result (isValidTransaction transaction s) /\
   same_objects s (final (isValidTransaction transaction s)) /\
   same_objects s (final (isValidTransaction transaction
                            (final (isValidTransaction transaction s))))) /\
  (result (isValidBlock block (final (isValidBlock block s)))
   = result (isValidBlock block s) /\
   same_objects s (final (isValidBlock block s)) /\
   same_objects s (final (isValidBlock block
                            (final (isValidBlock block s))))) /\
  (result (isValidChain blockchain (final (isValidChain blockchain s)))
   = result (isValidChain blockchain s) /\
   same_objects s (final (isValidChain blockchain s)) /\
   same_objects s (final (isValidChain blockchain
                            (final (isValidChain blockchain s))))).
Proof.
  assert (twice : forall (m : M bool), observer m ->
            result (m (final (m s))) = result (m s) /\
            same_objects s (final (m s)) /\
            same_objects s (final (m (final (m s))))).
  { intros m Hm. pose proof (observer_final m s Hm) as H1.
    split; [now apply observer_result|]. split; [exact H1|].
    eapply same_objects_trans; [exact H1 | now apply observer_final]. }
  split; [apply twice, observer_isValidTransaction|].
  split; [apply twice, observer_isValidBlock|].
  apply twice, observer_isValidChain.
Qed.

(** C9.  The pass of [isValidChain] over the flattened transactions is
    redundant: on every blockchain and every store, [isValidChain]
    completes as the variant does that stops after the genesis gate, the
    hash-linkage gate and the per-block gate (the same boolean, or the same
    exception). *)
Theorem isValidChain_flattened_check_redundant blockchain s :
  result (isValidChain blockchain s)
  = result (isValidChain_without_flattened_check blockchain s).
Proof.
  unfold isValidChain, isValidChain_without_flattened_check. cbv zeta.
  apply bind_result_ext. intros prev0 s1 _.
  destruct (not_null prev0); [reflexivity|].
  apply bind_result_ext. intros unlinked s2 _.
  destruct unlinked; [reflexivity|].
  apply bind_result_ext. intros invalid s3 Hgate.
  destruct invalid; [reflexivity|].
  apply flattened_check_accepts. intros r Hr.
  assert (Hrej : result (some (fun b _ => ok ← isValidBlock b;
                                           mret (negb ok))
                              (blocks blockchain) s2) = Normal false)
    by now rewrite Hgate.
  assert (Hobs : forall b, observer (ok ← isValidBlock b; mret (negb ok))).
  { intros b. apply observer_bind; [apply observer_isValidBlock|].
    intros ?. apply observer_ret. }
  pose proof (proj1 (some_rejects _ _ _ _ Hobs) Hrej r Hr) as H.
  apply negated_rejects in H. rewrite <- H.
  apply observer_result; [apply observer_isValidBlock|].
  pose proof (observer_final _ s2
                (observer_some_from _ (blocks blockchain) 0%nat
                   (fun b (_ : nat) => Hobs b))) as Hs.
  unfold some in Hgate. rewrite Hgate in Hs. exact Hs.
Qed.

(** C7.  On a chain whose element at index 1 is a block object whose first
    transaction is a transaction object, [breakChain] returns normally and
    writes one field of one object: afterwards that transaction has
    [amount] 999999999 and the [source], [recipient] and [signature] it
    had; every other transaction object is as it was; every block object,
    the one at index 1 with its [hash] and its array of transactions
    included, is as it was; no collaborator call has been recorded. *)
Theorem breakChain_frame blockchain s r1 b1 l ls t :
  blocks blockchain !! 1%nat = Some r1 ->
  blks s !! r1 = Some b1 ->
  transactions b1 = l :: ls ->
  txs s !! l = Some t ->
  exists s' t',
    breakChain blockchain s = (Normal tt, s') /\
    txs s' !! l = Some t' /\
    amount t' = 999999999 /\
    source t' = source t /\
    recipient t' = recipient t /\
    signature t' = signature t /\
    (forall l', l' <> l -> txs s' !! l' = txs s !! l') /\
    blks s' = blks s /\
    blks s' !! r1 = Some b1 /\
    verify_calls s' = verify_calls s.
Proof.
  intros Hr1 Hb1 Hts Ht.
  exists (with_txs s (<[l := with_amount t 999999999]> (txs s))),
         (with_amount t 999999999).
  split; [now apply (breakChain_writes _ _ _ _ _ _ _ Hr1 Hb1 Hts Ht)|].
  cbn. split; [apply lookup_insert_eq|].
  repeat (split; [reflexivity|]).
  split; [intros l' Hl'; now apply lookup_insert_ne|].
  repeat split. exact Hb1.
Qed.

(** C10.  [breakChain] is partial.  It returns normally only on a chain
    whose element at index 1 is a block object with a non-empty
    [transactions] array whose first element is a transaction object.  On
    a chain with fewer than two blocks, and on a chain whose block at
    index 1 has no transaction, it throws [TypeError] and the store is as
    it was: nothing has been written. *)
Theorem breakChain_partial blockchain s :
  (forall s', breakChain blockchain s = (Normal tt, s') ->
     exists r1 b1 l ls t,
       blocks blockchain !! 1%nat = Some r1 /\
       blks s !! r1 = Some b1 /\
       transactions b1 = l :: ls /\
       txs s !! l = Some t) /\
  ((length (blocks blockchain) < 2)%nat ->
     breakChain blockchain s = (Throw TypeError, s)) /\
  (forall r1 b1,
     blocks blockchain !! 1%nat = Some r1 ->
     blks s !! r1 = Some b1 ->
     transactions b1 = [] ->
     breakChain blockchain s = (Throw TypeError, s)).
Proof.
  split; [|split].
  - intros s' H. unfold breakChain in H.
    destruct (blocks blockchain !! 1%nat) as [r1|] eqn:Hr1;
      [|discriminate].
    destruct (blks s !! r1) as [b1|] eqn:Hb1.
    + rewrite (bind_normal _ _ _ _ _ (blk_get_obj transactions _ _ _ Hb1))
        in H.
      destruct (transactions b1) as [|l ls] eqn:Hts; [discriminate|].
      cbn in H. destruct (txs s !! l) as [t|] eqn:Ht; [|discriminate].
      exists r1, b1, l, ls, t. auto.
    + rewrite (bind_throw _ _ _ _ _ (blk_get_no_obj transactions _ _ Hb1))
        in H.
      discriminate.
  - intros Hlen. unfold breakChain.
    now rewrite (proj2 (lookup_ge_None (blocks blockchain) 1%nat))
      by lia.
  - intros r1 b1 Hr1 Hb1 Hts. unfold breakChain. rewrite Hr1.
    rewrite (bind_normal _ _ _ _ _ (blk_get_obj transactions _ _ _ Hb1)).
    now rewrite Hts.
Qed.

(** ** Further properties of the module *)

(** *** Readers *)

Lemma reader_ret {A} (a : A) : reader (mret a).
Proof. intros s. reflexivity. Qed.

Lemma reader_bind {A B} (m : M A) (f : A -> M B) :
  reader m -> (forall a, reader (f a)) -> reader (m ≫= f).
Proof.
  intros Hm Hf s. specialize (Hm s).
  destruct (m s) as [[a|e] s1] eqn:E; cbn [final snd] in Hm; subst s1.
  - rewrite (bind_normal _ _ _ _ _ E). apply Hf.
  - now rewrite (bind_throw _ _ _ _ _ E).
Qed.

Lemma reader_blk_get {A} (f : Block -> A) v : reader (blk_get f v).
Proof. intros s. unfold blk_get. now destruct (v ≫= _). Qed.

Lemma reader_some_from {A} (cb : A -> nat -> M bool) xs i :
  (forall x j, reader (cb x j)) -> reader (some_from cb i xs).
Proof.
  intros Hcb. revert i. induction xs as [|x xs IH]; intros i; cbn [some_from].
  - apply reader_ret.
  - apply reader_bind; [apply Hcb|]. intros [|]; [apply reader_ret | apply IH].
Qed.

(** *** Taking a normal completion apart *)

Lemma bind_result_normal {A B} (m : M A) (f : A -> M B) s b :
  result ((m ≫= f) s) = Normal b ->
  exists a s', m s = (Normal a, s') /\ result (f a s') = Normal b.
Proof.
  destruct (m s) as [[a|e] s'] eqn:E.
  - rewrite (bind_normal _ _ _ _ _ E). eauto.
  - rewrite (bind_throw _ _ _ _ _ E). discriminate.
Qed.

Lemma result_normal {A} (r : completion A * store) a :
  result r = Normal a -> r = (Normal a, final r).
Proof. destruct r as [c s]. cbn. now intros ->. Qed.

Lemma record_calls_nil s : record_calls s [] = s.
Proof. destruct s. unfold record_calls. cbn. now rewrite app_nil_r. Qed.

Lemma record_calls_app s cs cs' :
  record_calls (record_calls s cs) cs' = record_calls s (cs ++ cs').
Proof. unfold record_calls. cbn. now rewrite app_assoc. Qed.

(** *** When the validators accept *)

Lemma isValidTransaction_no_obj transaction s :
  txs s !! transaction = None ->
  isValidTransaction transaction s = (Throw TypeError, s).
Proof.
  intros H. unfold isValidTransaction.
  now rewrite (bind_throw _ _ _ _ _ (tx_get_no_obj amount _ _ H)).
Qed.

Lemma isValidTransaction_accepts transaction s :
  result (isValidTransaction transaction s) = Normal true <->
  exists t, txs s !! transaction = Some t /\ tx_passes t.
Proof.
  destruct (txs s !! transaction) as [t|] eqn:Ht.
  - rewrite (isValidTransaction_obj _ _ _ Ht). unfold tx_passes.
    destruct (Z.ltb_spec (amount t) 0) as [Hneg|Hpos]; cbn [result fst].
    + split; [discriminate|]. intros (t' & [= <-] & Hpos & _). lia.
    + split; [intros H; exists t; auto|]. now intros (t' & [= <-] & _ & H).
  - rewrite (isValidTransaction_no_obj _ _ Ht).
    split; [discriminate | intros (t & [=] & _)].
Qed.

Lemma tx_objects_pass s ts objs :
  tx_objects s ts = Some objs ->
  Forall tx_passes objs <->
  (forall l, l ∈ ts -> result (isValidTransaction l s) = Normal true).
Proof.
  revert objs. induction ts as [|l ts IH]; intros objs H.
  - injection H as <-. split; [|constructor]. intros _ l Hl. inversion Hl.
  - apply tx_objects_cons in H as (o & os & -> & Ho & Hos).
    rewrite Forall_cons, (IH _ Hos). split.
    + intros [Hpass Hrest] l' Hl'. apply elem_of_cons in Hl' as [->|Hl'].
      * apply isValidTransaction_accepts. eauto.
      * now apply Hrest.
    + intros H. split.
      * destruct (proj1 (isValidTransaction_accepts l s)
                    (H l (list_elem_of_here _ _))) as (t & Ht & Hpass).
        congruence.
      * intros l' Hl'. apply H. now apply list_elem_of_further.
Qed.

Lemma isValidBlock_accepts_passes block s :
  result (isValidBlock block s) = Normal true <->
  exists b, blks s !! block = Some b /\ block_passes s b.
Proof.
  split.
  - intros H. destruct (blks s !! block) as [b|] eqn:Hb.
    + exists b. split; [reflexivity|].
      destruct (tx_objects s (transactions b)) as [objs|] eqn:Hobjs.
      * exists objs. split; [exact Hobjs|].
        rewrite (isValidBlock_obj _ _ _ _ Hb Hobjs) in H.
        destruct (String.eqb_spec (hash b) (block_digest b objs)) as [E|E];
          [|discriminate].
        split; [exact E|]. apply (tx_objects_pass _ _ _ Hobjs).
        exact (proj1 (every_accepts _ _ _ observer_isValidTransaction) H).
      * unfold isValidBlock in H.
        rewrite (bind_normal _ _ _ _ _ (blk_get_obj transactions _ _ _ Hb))
          in H.
        rewrite (bind_throw _ _ _ _ _
                   (map_tx_get_missing signature _ _ Hobjs)) in H.
        discriminate.
    + unfold isValidBlock in H.
      rewrite (bind_throw _ _ _ _ _ (blk_get_no_obj transactions _ _ Hb))
        in H.
      discriminate.
  - intros (b & Hb & objs & Hobjs & Hhash & Hpass).
    rewrite (isValidBlock_obj _ _ _ _ Hb Hobjs).
    apply String.eqb_eq in Hhash. rewrite Hhash.
    apply every_accepts; [apply observer_isValidTransaction|].
    now apply (tx_objects_pass _ _ _ Hobjs).
Qed.

(** *** The gates of [isValidChain] *)

Lemma blk_get_normal {A} (f : Block -> A) v s a s' :
  blk_get f v s = (Normal a, s') ->
  exists r b, v = Some r /\ blks s !! r = Some b /\ a = f b /\ s' = s.
Proof.
  unfold blk_get. destruct v as [r|]; cbn; [|discriminate].
  destruct (blks s !! r) as [b|] eqn:Hb; [|discriminate].
  intros [= <- <-]. exists r, b. auto.
Qed.

Lemma strict_neq_false prev h : strict_neq prev h = false <-> prev = Some h.
Proof.
  destruct (strict_neq prev h) eqn:E.
  - apply strict_neq_true in E. split; [discriminate | contradiction].
  - split; [intros _ | reflexivity].
    destruct prev as [p|]; [|discriminate]. cbn in E.
    apply negb_false_iff, String.eqb_eq in E. now subst.
Qed.

(** [some] over a callback that reads without writing returns normally,
    and rejects exactly when the callback rejects at every index. *)
Lemma some_from_reads {A} (cb : A -> nat -> M bool) xs i s :
  (forall j x, xs !! j = Some x ->
     exists v, cb x (i + j)%nat s = (Normal v, s)) ->
  exists v, some_from cb i xs s = (Normal v, s) /\
    (v = false <->
     forall j x, xs !! j = Some x -> cb x (i + j)%nat s = (Normal false, s)).
Proof.
  revert i. induction xs as [|x xs IH]; intros i Hall.
  - exists false. split; [reflexivity|]. split; [|reflexivity].
    intros _ j x Hx. discriminate.
  - cbn [some_from]. destruct (Hall 0%nat x eq_refl) as [v0 Hv0].
    rewrite Nat.add_0_r in Hv0. rewrite (bind_normal _ _ _ _ _ Hv0).
    destruct v0.
    + exists true. split; [reflexivity|]. split; [discriminate|].
      intros H. specialize (H 0%nat x eq_refl).
      rewrite Nat.add_0_r, Hv0 in H. discriminate.
    + destruct (IH (S i)) as (v & Hv & Hiff).
      { intros j y Hy. replace (S i + j)%nat with (i + S j)%nat by lia.
        now apply Hall. }
      exists v. split; [exact Hv|]. rewrite Hiff. split.
      * intros H [|j] y Hy.
        -- injection Hy as <-. now rewrite Nat.add_0_r.
        -- replace (i + S j)%nat with (S i + j)%nat by lia. now apply H.
      * intros H j y Hy. replace (S i + j)%nat with (i + S j)%nat by lia.
        now apply H.
Qed.

(** The linkage callback on a chain of block objects. *)
Lemma linkage_callback_value blocks s objs j x p b :
  blk_objects s blocks = Some objs ->
  blocks !! S j = Some x ->
  objs !! j = Some p -> objs !! S j = Some b ->
  (prev ← blk_get previousHash (Some x);
   h ← blk_get hash (blocks !! j);
   mret (strict_neq prev h)) s
  = (Normal (strict_neq (previousHash b) (hash p)), s).
Proof.
  intros Hobjs Hx Hp Hb.
  destruct (blk_objects_defined _ _ _ _ _ Hobjs Hx) as (b' & Hb' & Hxb).
  assert (b' = b) as -> by congruence.
  apply (blk_objects_lookup _ _ _ j Hobjs) in Hp as (rp & Hrp & Hop).
  rewrite (bind_normal _ _ _ _ _ (blk_get_obj previousHash _ _ _ Hxb)).
  rewrite Hrp.
  now rewrite (bind_normal _ _ _ _ _ (blk_get_obj hash _ _ _ Hop)).
Qed.

Lemma blk_objects_length s bs objs :
  blk_objects s bs = Some objs -> length objs = length bs.
Proof. intros H. apply mapM_Some in H. symmetry. eapply Forall2_length, H. Qed.

Lemma linkage_gate_value blocks s objs :
  blk_objects s blocks = Some objs ->
  exists v,
    some (fun b i =>
            prev ← blk_get previousHash (Some b);
            h ← blk_get hash (blocks !! i);
            mret (strict_neq prev h))
         (slice 1 blocks) s = (Normal v, s) /\
    (v = false <-> linked objs).
Proof.
  intros Hobjs. pose proof (blk_objects_length _ _ _ Hobjs) as Hlen.
  assert (Hpair : forall j x, slice 1 blocks !! j = Some x ->
            exists p b, blocks !! S j = Some x /\
                        objs !! j = Some p /\ objs !! S j = Some b).
  { intros j x Hx. unfold slice in Hx. rewrite lookup_drop in Hx.
    cbn in Hx. destruct (blk_objects_defined _ _ _ _ _ Hobjs Hx)
      as (b & Hb & _).
    destruct (lookup_lt_is_Some_2 objs j) as [p Hp].
    { apply lookup_lt_Some in Hb. lia. }
    eauto. }
  unfold some.
  destruct (some_from_reads
              (fun b i =>
                 prev ← blk_get previousHash (Some b);
                 h ← blk_get hash (blocks !! i);
                 mret (strict_neq prev h))
              (slice 1 blocks) 0%nat s) as (v & Hv & Hiff).
  { intros j x Hx. destruct (Hpair j x Hx) as (p & b & Hx' & Hp & Hb).
    eexists. cbn beta. change (0 + j)%nat with j.
    exact (linkage_callback_value _ _ _ _ _ _ _ Hobjs Hx' Hp Hb). }
  exists v. split; [exact Hv|]. rewrite Hiff. split.
  - intros H i p b Hp Hb.
    destruct (proj1 (blk_objects_lookup _ _ _ (S i) Hobjs b) Hb)
      as (rb & Hrb & _).
    assert (Hx : slice 1 blocks !! i = Some rb)
      by (unfold slice; now rewrite lookup_drop).
    specialize (H i rb Hx). cbn beta in H. change (0 + i)%nat with i in H.
    rewrite (linkage_callback_value _ _ _ _ _ _ _ Hobjs Hrb Hp Hb) in H.
    apply strict_neq_false. congruence.
  - intros H j x Hx. destruct (Hpair j x Hx) as (p & b & Hx' & Hp & Hb).
    cbn beta. change (0 + j)%nat with j.
    rewrite (linkage_callback_value _ _ _ _ _ _ _ Hobjs Hx' Hp Hb).
    now rewrite (proj2 (strict_neq_false _ _) (H j p b Hp Hb)).
Qed.

(** On a chain of block objects with a [null] first [previousHash] and
    intact links, [isValidChain] is its last two steps. *)
Lemma isValidChain_past_linkage blockchain s g rest :
  blk_objects s (blocks blockchain) = Some (g :: rest) ->
  previousHash g = None ->
  linked (g :: rest) ->
  isValidChain blockchain s
  = (invalid ← block_gate (blocks blockchain);
     if invalid : bool then mret false
     else flattened_pass (blocks blockchain)) s.
Proof.
  intros Hobjs Hnull Hlinked. unfold isValidChain. cbv zeta.
  destruct (proj1 (blk_objects_lookup _ _ _ 0%nat Hobjs g) eq_refl)
    as (r0 & Hr0 & Hg).
  rewrite Hr0.
  rewrite (bind_normal _ _ _ _ _ (blk_get_obj previousHash _ _ _ Hg)).
  rewrite Hnull. cbn [not_null].
  destruct (linkage_gate_value _ _ _ Hobjs) as (v & Hv & Hiff).
  rewrite (bind_normal _ _ _ _ _ Hv).
  now rewrite (proj2 Hiff Hlinked).
Qed.

Lemma negated_of_accepts (m : M bool) s :
  result (m s) = Normal true ->
  result ((ok ← m; mret (negb ok)) s) = Normal false.
Proof.
  intros H. apply result_normal in H.
  now rewrite (bind_normal _ _ _ _ _ H).
Qed.

Lemma observer_negated_isValidBlock b :
  observer (ok ← isValidBlock b; mret (negb ok)).
Proof.
  apply observer_bind; [apply observer_isValidBlock|].
  intros ?. apply observer_ret.
Qed.

Lemma observer_block_gate blocks : observer (block_gate blocks).
Proof.
  apply observer_some_from. intros b _. apply observer_negated_isValidBlock.
Qed.

(** The last two steps accept when [isValidBlock] accepts every block. *)
Lemma last_steps_accept blocks s :
  (forall r, r ∈ blocks -> result (isValidBlock r s) = Normal true) ->
  result ((invalid ← block_gate blocks;
           if invalid : bool then mret false else flattened_pass blocks) s)
  = Normal true.
Proof.
  intros Hall.
  assert (Hgate : result (block_gate blocks s) = Normal false).
  { apply some_rejects; [apply observer_negated_isValidBlock|].
    intros r Hr. now apply negated_of_accepts, Hall. }
  pose proof (observer_final _ s (observer_block_gate blocks)) as Hs.
  apply result_normal in Hgate. rewrite (bind_normal _ _ _ _ _ Hgate).
  apply flattened_check_accepts. intros r Hr. rewrite <- (Hall r Hr).
  apply observer_result; [apply observer_isValidBlock | exact Hs].
Qed.

Lemma blk_objects_elem s bs objs r :
  blk_objects s bs = Some objs -> r ∈ bs ->
  exists o, o ∈ objs /\ blks s !! r = Some o.
Proof.
  intros H Hr. apply list_elem_of_lookup in Hr as [i Hi].
  destruct (blk_objects_defined _ _ _ _ _ H Hi) as (o & Ho & Hro).
  exists o. split; [|exact Hro]. apply list_elem_of_lookup. eauto.
Qed.

Lemma chain_passes_blocks s blockchain r :
  chain_passes s blockchain -> r ∈ blocks blockchain ->
  result (isValidBlock r s) = Normal true.
Proof.
  intros (g & rest & Hobjs & _ & _ & Hpass) Hr.
  destruct (blk_objects_elem _ _ _ _ Hobjs Hr) as (o & Ho & Hro).
  apply isValidBlock_accepts_passes. exists o. split; [exact Hro|].
  rewrite Forall_forall in Hpass. now apply Hpass.
Qed.

Lemma isValidChain_accepts_of_passes blockchain s :
  chain_passes s blockchain ->
  result (isValidChain blockchain s) = Normal true.
Proof.
  intros Hc. pose proof Hc as (g & rest & Hobjs & Hnull & Hlinked & _).
  rewrite (isValidChain_past_linkage _ _ _ _ Hobjs Hnull Hlinked).
  apply last_steps_accept. intros r Hr.
  now apply (chain_passes_blocks _ _ _ Hc).
Qed.

Lemma isValidChain_passes_of_accepts blockchain s :
  result (isValidChain blockchain s) = Normal true ->
  chain_passes s blockchain.
Proof.
  intros H. unfold isValidChain in H. cbv zeta in H.
  apply bind_result_normal in H as (prev0 & s1 & E1 & H).
  apply blk_get_normal in E1 as (r0 & g & Hr0 & Hg & -> & ->).
  destruct (previousHash g) as [|] eqn:Hnull; [discriminate|].
  cbn [not_null] in H.
  apply bind_result_normal in H as (unlinked & s2 & E2 & H).
  destruct unlinked; [discriminate|].
  assert (s2 = s) as ->.
  { change s2 with (final (Normal false, s2)). rewrite <- E2.
    apply reader_some_from. intros x j.
    repeat (apply reader_bind; [apply reader_blk_get|]; intros ?).
    apply reader_ret. }
  apply bind_result_normal in H as (invalid & s3 & E3 & H).
  destruct invalid; [discriminate|].
  assert (Hrej : result (block_gate (blocks blockchain) s) = Normal false)
    by (unfold block_gate; now rewrite E3).
  destruct (blk_objects_of_all s (blocks blockchain) (block_passes s))
    as (objs & Hobjs & Hpass).
  { intros r Hr. apply isValidBlock_accepts_passes, negated_rejects.
    exact (proj1 (some_rejects _ _ _ _ observer_negated_isValidBlock)
             Hrej r Hr). }
  destruct (blk_objects_defined _ _ _ _ _ Hobjs Hr0) as (g' & Hg' & Hg'').
  assert (g' = g) as -> by congruence.
  destruct objs as [|g0 rest]; [discriminate|]. injection Hg' as ->.
  exists g, rest. split; [exact Hobjs|]. split; [exact Hnull|]. split.
  - destruct (linkage_gate_value _ _ _ Hobjs) as (v & Hv & Hiff).
    rewrite Hv in E2. injection E2 as ->. now apply Hiff.
  - apply Forall_forall. exact Hpass.
Qed.

(** *** The calls a valid chain costs *)

Lemma every_passing_run ts s objs :
  tx_objects s ts = Some objs ->
  Forall tx_passes objs ->
  every isValidTransaction ts s
  = (Normal true, record_calls s (call_of <$> objs)).
Proof.
  revert s objs. induction ts as [|l ts IH]; intros s objs H Hpass.
  - injection H as <-. cbn. now rewrite record_calls_nil.
  - apply tx_objects_cons in H as (o & os & -> & Ho & Hos).
    apply Forall_cons in Hpass as [[Hpos Hv] Hpass].
    cbn [every].
    assert (E : isValidTransaction l s
                = (Normal true, record_calls s [call_of o])).
    { rewrite (isValidTransaction_obj _ _ _ Ho).
      apply Z.ltb_ge in Hpos. now rewrite Hpos, Hv. }
    rewrite (bind_normal _ _ _ _ _ E).
    rewrite (IH (record_calls s [call_of o]) os Hos Hpass).
    now rewrite record_calls_app.
Qed.

Lemma isValidBlock_passing_run block s b :
  blks s !! block = Some b ->
  block_passes s b ->
  isValidBlock block s = (Normal true, record_calls s (block_calls s b)).
Proof.
  intros Hb (objs & Hobjs & Hhash & Hpass).
  rewrite (isValidBlock_obj _ _ _ _ Hb Hobjs).
  apply String.eqb_eq in Hhash. rewrite Hhash.
  unfold block_calls. rewrite Hobjs.
  now apply every_passing_run.
Qed.

Lemma block_gate_passing_run bs s objs :
  blk_objects s bs = Some objs ->
  Forall (block_passes s) objs ->
  block_gate bs s = (Normal false, record_calls s (chain_calls s objs)).
Proof.
  unfold block_gate, some. generalize 0%nat as i.
  assert (G : forall cs i,
            blk_objects s bs = Some objs -> Forall (block_passes s) objs ->
            some_from (fun b _ => ok ← isValidBlock b; mret (negb ok)) i bs
                      (record_calls s cs)
            = (Normal false, record_calls s (cs ++ chain_calls s objs))).
  { revert objs. induction bs as [|r bs IH]; intros objs cs i H Hpass.
    - injection H as <-. cbn. now rewrite app_nil_r.
    - apply blk_objects_cons in H as (o & os & -> & Ho & Hos).
      apply Forall_cons in Hpass as [Hp Hpass]. cbn [some_from].
      pose proof (isValidBlock_passing_run r (record_calls s cs) o Ho Hp)
        as E.
      rewrite record_calls_app in E.
      change (block_calls (record_calls s cs) o) with (block_calls s o) in E.
      rewrite (bind_normal _ _ _ _ _ (bind_normal _ _ _ _ _ E)).
      cbn [negb]. rewrite (IH os _ _ Hos Hpass).
      unfold chain_calls. cbn [fmap list_fmap concat].
      now rewrite app_assoc. }
  intros i H Hpass. rewrite <- (record_calls_nil s) at 1.
  now rewrite (G [] i H Hpass).
Qed.

Lemma reduce_concat {A} (tss : list (list A)) acc :
  reduce (fun flat ts => flat ++ ts) acc tss = acc ++ concat tss.
Proof.
  unfold reduce. revert acc. induction tss as [|ts tss IH]; intros acc; cbn.
  - now rewrite app_nil_r.
  - now rewrite IH, app_assoc.
Qed.

Lemma tx_objects_app s ts ts' objs objs' :
  tx_objects s ts = Some objs -> tx_objects s ts' = Some objs' ->
  tx_objects s (ts ++ ts') = Some (objs ++ objs').
Proof.
  unfold tx_objects. rewrite !mapM_Some. apply Forall2_app.
Qed.

Lemma flattened_objects s objs :
  Forall (block_passes s) objs ->
  exists tobjs,
    tx_objects s (concat (transactions <$> objs)) = Some tobjs /\
    Forall tx_passes tobjs /\
    call_of <$> tobjs = chain_calls s objs.
Proof.
  induction 1 as [|b objs (os & Hos & _ & Hpass) _ (tobjs & Ht & Hp & Hc)].
  - exists []. repeat split. constructor.
  - exists (os ++ tobjs). cbn [fmap list_fmap concat]. split; [|split].
    + now apply tx_objects_app.
    + now apply Forall_app.
    + rewrite fmap_app, Hc. unfold chain_calls, block_calls.
      cbn [fmap list_fmap concat]. now rewrite Hos.
Qed.

Lemma flattened_pass_passing_run bs s objs :
  blk_objects s bs = Some objs ->
  Forall (block_passes s) objs ->
  flattened_pass bs s = (Normal true, record_calls s (chain_calls s objs)).
Proof.
  intros Hobjs Hpass. unfold flattened_pass.
  rewrite (bind_normal _ _ _ _ _ (map_blk_get_objs transactions _ _ _ Hobjs)).
  rewrite reduce_concat. cbn [app].
  destruct (flattened_objects _ _ Hpass) as (tobjs & Ht & Hp & <-).
  now apply every_passing_run.
Qed.

Lemma isValidChain_passing_run blockchain s g rest :
  blk_objects s (blocks blockchain) = Some (g :: rest) ->
  previousHash g = None ->
  linked (g :: rest) ->
  Forall (block_passes s) (g :: rest) ->
  isValidChain blockchain s
  = (Normal true,
     record_calls s (chain_calls s (g :: rest) ++ chain_calls s (g :: rest))).
Proof.
  intros Hobjs Hnull Hlinked Hpass.
  rewrite (isValidChain_past_linkage _ _ _ _ Hobjs Hnull Hlinked).
  rewrite (bind_normal _ _ _ _ _ (block_gate_passing_run _ _ _ Hobjs Hpass)).
  pose proof (flattened_pass_passing_run (blocks blockchain)
                (record_calls s (chain_calls s (g :: rest))) (g :: rest)
                Hobjs Hpass) as E.
  rewrite record_calls_app in E. exact E.
Qed.

(** *** The first element that decides *)

(** [every] completes as the callback does on the one element that may
    not be accepted, when there is one. *)
Lemma every_first {A} (cb : A -> M bool) xs s R :
  (forall x, observer (cb x)) ->
  (forall x, x ∈ xs -> result (cb x s) = Normal true \/ result (cb x s) = R) ->
  (exists x, x ∈ xs /\ result (cb x s) = R) ->
  result (every cb xs s) = R.
Proof.
  intros Hcb. revert s. induction xs as [|x xs IH]; intros s Hall (y & Hy & HR).
  - inversion Hy.
  - cbn [every]. pose proof (observer_final _ s (Hcb x)) as Hs.
    destruct (cb x s) as [[[|]|e] s1] eqn:E; cbn [final snd] in Hs.
    + rewrite (bind_normal _ _ _ _ _ E).
      assert (Hmove : forall z, result (cb z s1) = result (cb z s))
        by (intros z; now apply observer_result).
      apply elem_of_cons in Hy as [->|Hy].
      * rewrite E in HR. cbn in HR. subst R.
        apply every_accepts; [exact Hcb|]. intros z Hz. rewrite Hmove.
        destruct (Hall z) as [H|H]; auto. now apply list_elem_of_further.
      * apply IH.
        -- intros z Hz. rewrite Hmove. apply Hall.
           now apply list_elem_of_further.
        -- exists y. split; [exact Hy|]. now rewrite Hmove.
    + rewrite (bind_normal _ _ _ _ _ E). cbn.
      destruct (Hall x (list_elem_of_here _ _)) as [H|H];
        rewrite E in H; cbn in H; [discriminate | exact H].
    + rewrite (bind_throw _ _ _ _ _ E). cbn.
      destruct (Hall x (list_elem_of_here _ _)) as [H|H];
        rewrite E in H; cbn in H; [discriminate | exact H].
Qed.

(** [some] completes as the callback does on the one element that may not
    be rejected, when there is one. *)
Lemma some_first {A} (g : A -> M bool) xs i s R :
  (forall x, observer (g x)) ->
  (forall x, x ∈ xs -> result (g x s) = Normal false \/ result (g x s) = R) ->
  (exists x, x ∈ xs /\ result (g x s) = R) ->
  result (some_from (fun x _ => g x) i xs s) = R.
Proof.
  intros Hg. revert i s.
  induction xs as [|x xs IH]; intros i s Hall (y & Hy & HR).
  - inversion Hy.
  - cbn [some_from]. pose proof (observer_final _ s (Hg x)) as Hs.
    destruct (g x s) as [[[|]|e] s1] eqn:E; cbn [final snd] in Hs.
    + rewrite (bind_normal _ _ _ _ _ E). cbn.
      destruct (Hall x (list_elem_of_here _ _)) as [H|H];
        rewrite E in H; cbn in H; [discriminate | exact H].
    + rewrite (bind_normal _ _ _ _ _ E).
      assert (Hmove : forall z, result (g z s1) = result (g z s))
        by (intros z; now apply observer_result).
      apply elem_of_cons in Hy as [->|Hy].
      * rewrite E in HR. cbn in HR. subst R.
        apply some_rejects; [exact Hg|]. intros z Hz. rewrite Hmove.
        destruct (Hall z) as [H|H]; auto. now apply list_elem_of_further.
      * apply IH.
        -- intros z Hz. rewrite Hmove. apply Hall.
           now apply list_elem_of_further.
        -- exists y. split; [exact Hy|]. now rewrite Hmove.
    + rewrite (bind_throw _ _ _ _ _ E). cbn.
      destruct (Hall x (list_elem_of_here _ _)) as [H|H];
        rewrite E in H; cbn in H; [discriminate | exact H].
Qed.

Lemma bind_result_throw {A B} (m : M A) (f : A -> M B) s e :
  result (m s) = Throw e -> result ((m ≫= f) s) = Throw e.
Proof.
  destruct (m s) as [[a|e'] s'] eqn:E; cbn; [discriminate|].
  intros [= ->]. now rewrite (bind_throw _ _ _ _ _ E).
Qed.

Lemma negated_result (m : M bool) s :
  result ((ok ← m; mret (negb ok)) s)
  = match result (m s) with
    | Normal v => Normal (negb v)
    | Throw e => Throw e
    end.
Proof.
  destruct (m s) as [[v|e] s'] eqn:E; cbn.
  - now rewrite (bind_normal _ _ _ _ _ E).
  - now rewrite (bind_throw _ _ _ _ _ E).
Qed.

(** *** What a verdict depends on *)

(** The completion of [isValidTransaction] is a function of the slot its
    argument refers to. *)
Lemma isValidTransaction_result transaction s :
  result (isValidTransaction transaction s)
  = match txs s !! transaction with
    | Some t => if amount t <? 0 then Normal false
                else verify (source t) (signed_message t) (signature t)
    | None => Throw TypeError
    end.
Proof.
  destruct (txs s !! transaction) as [t|] eqn:Ht.
  - rewrite (isValidTransaction_obj _ _ _ Ht). now destruct (amount t <? 0).
  - now rewrite (isValidTransaction_no_obj _ _ Ht).
Qed.

Lemma isValidTransaction_local transaction s s' :
  txs s' !! transaction = txs s !! transaction ->
  result (isValidTransaction transaction s')
  = result (isValidTransaction transaction s).
Proof. intros H. now rewrite !isValidTransaction_result, H. Qed.

Lemma tx_objects_local s s' ts :
  (forall x, x ∈ ts -> txs s' !! x = txs s !! x) ->
  tx_objects s' ts = tx_objects s ts.
Proof.
  unfold tx_objects. induction ts as [|x ts IH]; intros H; [reflexivity|].
  cbn [mapM]. rewrite (H x (list_elem_of_here _ _)), IH; [reflexivity|].
  intros y Hy. apply H. now apply list_elem_of_further.
Qed.

(** Two runs of [every] complete alike when the callback does on each
    element. *)
Lemma every_result_ext {A} (cb : A -> M bool) xs s s' :
  (forall x, observer (cb x)) ->
  (forall x, x ∈ xs -> result (cb x s') = result (cb x s)) ->
  result (every cb xs s') = result (every cb xs s).
Proof.
  intros Hcb. revert s s'. induction xs as [|x xs IH]; intros s s' H.
  - reflexivity.
  - cbn [every]. pose proof (H x (list_elem_of_here _ _)) as Hx.
    pose proof (observer_final _ s (Hcb x)) as Hs.
    pose proof (observer_final _ s' (Hcb x)) as Hs'.
    destruct (cb x s) as [[v|e] s1] eqn:E;
      destruct (cb x s') as [[v'|e'] s1'] eqn:E';
      cbn in Hx, Hs, Hs'; try discriminate.
    + injection Hx as ->.
      rewrite (bind_normal _ _ _ _ _ E), (bind_normal _ _ _ _ _ E').
      destruct v; [|reflexivity]. apply IH. intros y Hy.
      rewrite (observer_result (cb y) s' s1' (Hcb y) Hs').
      rewrite (observer_result (cb y) s s1 (Hcb y) Hs).
      apply H. now apply list_elem_of_further.
    + injection Hx as ->.
      now rewrite (bind_throw _ _ _ _ _ E), (bind_throw _ _ _ _ _ E').
Qed.

Lemma isValidBlock_result_local block s s' b :
  blks s !! block = Some b ->
  blks s' !! block = Some b ->
  (forall x, x ∈ transactions b -> txs s' !! x = txs s !! x) ->
  result (isValidBlock block s') = result (isValidBlock block s).
Proof.
  intros Hb Hb' Hsame.
  pose proof (tx_objects_local s s' _ Hsame) as Hobjs.
  destruct (tx_objects s (transactions b)) as [objs|] eqn:E.
  - rewrite (isValidBlock_obj _ _ _ _ Hb E).
    rewrite (isValidBlock_obj _ _ _ _ Hb' Hobjs).
    destruct (String.eqb _ _); [|reflexivity].
    apply every_result_ext; [apply observer_isValidTransaction|].
    intros x Hx. now apply isValidTransaction_local, Hsame.
  - unfold isValidBlock.
    rewrite (bind_normal _ _ _ _ _ (blk_get_obj transactions _ _ _ Hb)).
    rewrite (bind_normal _ _ _ _ _ (blk_get_obj transactions _ _ _ Hb')).
    rewrite (bind_throw _ _ _ _ _ (map_tx_get_missing signature _ _ E)).
    now rewrite (bind_throw _ _ _ _ _
                   (map_tx_get_missing signature _ _ Hobjs)).
Qed.

(** *** A store with one amount overwritten *)

Lemma breakChain_normal blockchain s s' :
  breakChain blockchain s = (Normal tt, s') ->
  exists r1 b1 l ls t,
    blocks blockchain !! 1%nat = Some r1 /\
    blks s !! r1 = Some b1 /\
    transactions b1 = l :: ls /\
    txs s !! l = Some t /\
    s' = tampered s l t.
Proof.
  intros H. unfold breakChain in H.
  destruct (blocks blockchain !! 1%nat) as [r1|] eqn:Hr1; [|discriminate].
  destruct (blks s !! r1) as [b1|] eqn:Hb1.
  - pose proof H as H'.
    rewrite (bind_normal _ _ _ _ _ (blk_get_obj transactions _ _ _ Hb1)) in H.
    destruct (transactions b1) as [|l ls] eqn:Hts; [discriminate|].
    cbn in H. destruct (txs s !! l) as [t|] eqn:Ht; [|discriminate].
    injection H as <-. exists r1, b1, l, ls, t. auto.
  - rewrite (bind_throw _ _ _ _ _ (blk_get_no_obj transactions _ _ Hb1)) in H.
    discriminate.
Qed.

Lemma tampered_verdict s l t :
  result (isValidTransaction l (tampered s l t))
  = verify (source t) (source t +:+ recipient t +:+ "999999999")
           (signature t).
Proof.
  rewrite isValidTransaction_result. unfold tampered. cbn [txs with_txs].
  now rewrite lookup_insert_eq.
Qed.

Lemma tampered_verdict_elsewhere s l t x :
  x <> l ->
  result (isValidTransaction x (tampered s l t))
  = result (isValidTransaction x s).
Proof.
  intros Hx. apply isValidTransaction_local. unfold tampered.
  cbn [txs with_txs]. now apply lookup_insert_ne.
Qed.

(** The write keeps every array of transaction objects an array of
    transaction objects, with the signatures it had. *)
Lemma tx_objects_tampered s l t ts objs :
  txs s !! l = Some t ->
  tx_objects s ts = Some objs ->
  exists objs',
    tx_objects (tampered s l t) ts = Some objs' /\
    signature <$> objs' = signature <$> objs.
Proof.
  intros Ht. revert objs. induction ts as [|x ts IH]; intros objs H.
  - injection H as <-. now exists [].
  - apply tx_objects_cons in H as (o & os & -> & Ho & Hos).
    destruct (IH _ Hos) as (os' & Hos' & Hsig).
    destruct (decide (x = l)) as [->|Hx].
    + exists (with_amount t 999999999 :: os'). split.
      * apply tx_objects_cons. eexists _, _. split; [reflexivity|].
        split; [|exact Hos']. unfold tampered. cbn [txs with_txs].
        apply lookup_insert_eq.
      * cbn. rewrite Hsig. assert (o = t) as -> by congruence. reflexivity.
    + exists (o :: os'). split.
      * apply tx_objects_cons. eexists _, _. split; [reflexivity|].
        split; [|exact Hos']. unfold tampered. cbn [txs with_txs].
        now rewrite lookup_insert_ne.
      * cbn. now rewrite Hsig.
Qed.

(** After the write, [isValidBlock] on a block that passed completes as
    the collaborator does on the overwritten transaction, if the block
    holds it, and accepts otherwise. *)
Lemma isValidBlock_tampered s l t block b :
  txs s !! l = Some t ->
  blks s !! block = Some b ->
  block_passes s b ->
  result (isValidBlock block (tampered s l t))
  = if decide (l ∈ transactions b)
    then verify (source t) (source t +:+ recipient t +:+ "999999999")
                (signature t)
    else Normal true.
Proof.
  intros Ht Hb (objs & Hobjs & Hhash & Hpass).
  destruct (tx_objects_tampered _ _ _ _ _ Ht Hobjs) as (objs' & Hobjs' & Hsig).
  assert (Hb' : blks (tampered s l t) !! block = Some b) by exact Hb.
  rewrite (isValidBlock_obj _ _ _ _ Hb' Hobjs').
  assert (Hd : block_digest b objs' = block_digest b objs)
    by (unfold block_digest; now rewrite Hsig).
  rewrite Hd. apply String.eqb_eq in Hhash. rewrite Hhash.
  pose proof (proj1 (tx_objects_pass _ _ _ Hobjs) Hpass) as Hall.
  destruct (decide (l ∈ transactions b)) as [Hl|Hl].
  - apply every_first; [apply observer_isValidTransaction| |].
    + intros x Hx. destruct (decide (x = l)) as [->|Hne].
      * right. apply tampered_verdict.
      * left. rewrite (tampered_verdict_elsewhere _ _ _ _ Hne). now apply Hall.
    + exists l. split; [exact Hl | apply tampered_verdict].
  - apply every_accepts; [apply observer_isValidTransaction|].
    intros x Hx. rewrite tampered_verdict_elsewhere; [now apply Hall|].
    intros ->. contradiction.
Qed.

Lemma isValidChain_tampered blockchain s r1 b1 l ls t :
  chain_passes s blockchain ->
  blocks blockchain !! 1%nat = Some r1 ->
  blks s !! r1 = Some b1 ->
  transactions b1 = l :: ls ->
  txs s !! l = Some t ->
  result (isValidChain blockchain (tampered s l t))
  = verify (source t) (source t +:+ recipient t +:+ "999999999")
           (signature t).
Proof.
  intros Hc Hr1 Hb1 Hts Ht.
  pose proof Hc as (g & rest & Hobjs & Hnull & Hlinked & Hpass).
  assert (Hobjs' : blk_objects (tampered s l t) (blocks blockchain)
                   = Some (g :: rest)) by exact Hobjs.
  rewrite (isValidChain_past_linkage _ _ _ _ Hobjs' Hnull Hlinked).
  assert (Hblock : forall r, r ∈ blocks blockchain ->
            exists b, blks s !! r = Some b /\ block_passes s b).
  { intros r Hr. apply isValidBlock_accepts_passes.
    now apply (chain_passes_blocks _ _ _ Hc). }
  assert (Hr1in : r1 ∈ blocks blockchain)
    by (apply list_elem_of_lookup; eauto).
  assert (Hl : l ∈ transactions b1)
    by (rewrite Hts; apply list_elem_of_here).
  assert (Hp1 : block_passes s b1).
  { destruct (Hblock r1 Hr1in) as (b & Hb & Hp). congruence. }
  pose proof (isValidBlock_tampered _ _ _ _ _ Ht Hb1 Hp1) as H1.
  rewrite (decide_True _ _ Hl) in H1.
  destruct (verify (source t) (source t +:+ recipient t +:+ "999999999")
              (signature t)) as [[|]|e] eqn:R.
  - apply last_steps_accept. intros r Hr.
    destruct (Hblock r Hr) as (b & Hb & Hp).
    rewrite (isValidBlock_tampered _ _ _ _ _ Ht Hb Hp), R.
    now destruct (decide _).
  - assert (Hgate : result (block_gate (blocks blockchain) (tampered s l t))
                    = Normal true).
    { apply some_first; [apply observer_negated_isValidBlock| |].
      - intros r Hr. destruct (Hblock r Hr) as (b & Hb & Hp).
        rewrite negated_result,
          (isValidBlock_tampered _ _ _ _ _ Ht Hb Hp), R.
        destruct (decide _); auto.
      - exists r1. split; [exact Hr1in|]. now rewrite negated_result, H1. }
    apply result_normal in Hgate. now rewrite (bind_normal _ _ _ _ _ Hgate).
  - apply bind_result_throw.
    apply some_first; [apply observer_negated_isValidBlock| |].
    + intros r Hr. destruct (Hblock r Hr) as (b & Hb & Hp).
      rewrite negated_result, (isValidBlock_tampered _ _ _ _ _ Ht Hb Hp), R.
      destruct (decide _); auto.
    + exists r1. split; [exact Hr1in|]. now rewrite negated_result, H1.
Qed.

(** *** A chain with one more block *)

Lemma blk_objects_snoc s bs r objs :
  blk_objects s (bs ++ [r]) = Some objs <->
  exists os b, objs = os ++ [b] /\
               blk_objects s bs = Some os /\ blks s !! r = Some b.
Proof.
  unfold blk_objects. rewrite mapM_Some, Forall2_app_inv_l. split.
  - intros (os & k & Hos & Hk & ->).
    apply Forall2_cons_inv_l in Hk as (b & k' & Hb & Hk' & ->).
    apply Forall2_nil_inv_l in Hk' as ->.
    exists os, b. rewrite mapM_Some. auto.
  - intros (os & b & -> & Hos & Hb). exists os, [b].
    rewrite mapM_Some in Hos. repeat split; [exact Hos|].
    constructor; [exact Hb | constructor].
Qed.

Lemma linked_snoc os b :
  linked (os ++ [b]) <->
  linked os /\ (forall p, last os = Some p -> previousHash b = Some (hash p)).
Proof.
  split.
  - intros H. split.
    + intros i p b' Hp Hb'. apply (H i).
      * now apply lookup_app_l_Some.
      * now apply lookup_app_l_Some.
    + intros p Hp. apply last_Some in Hp as [os' ->].
      apply (H (length os')).
      * rewrite <- app_assoc. cbn. now apply list_lookup_middle.
      * assert (Hlen : length (os' ++ [p]) = S (length os'))
          by (rewrite length_app; cbn; lia).
        rewrite lookup_app_r by lia. now rewrite Hlen, Nat.sub_diag.
  - intros [Hos Hlast] i p b' Hp Hb'.
    destruct (decide (S i < length os)%nat) as [Hlt|Hge].
    + rewrite lookup_app_l in Hp, Hb' by lia. now apply (Hos i).
    + assert (S i = length os) as Hi.
      { apply lookup_lt_Some in Hb'. rewrite length_app in Hb'. cbn in Hb'.
        lia. }
      rewrite lookup_app_r in Hb' by lia.
      replace (S i - length os)%nat with 0%nat in Hb' by lia.
      injection Hb' as <-. apply Hlast.
      rewrite lookup_app_l in Hp by lia.
      rewrite last_lookup. now replace (pred (length os)) with i by lia.
Qed.

Lemma blk_objects_last s bs objs rp :
  blk_objects s bs = Some objs -> last bs = Some rp ->
  exists p, last objs = Some p /\ blks s !! rp = Some p.
Proof.
  intros H Hlast. rewrite last_lookup in Hlast.
  destruct (blk_objects_defined _ _ _ _ _ H Hlast) as (p & Hp & Hrp).
  exists p. split; [|exact Hrp].
  now rewrite last_lookup, (blk_objects_length _ _ _ H).
Qed.

Lemma chain_passes_snoc s bs r :
  bs <> [] ->
  chain_passes s {| blocks := bs ++ [r] |} <->
  chain_passes s {| blocks := bs |} /\
  exists rp p b,
    last bs = Some rp /\ blks s !! rp = Some p /\ blks s !! r = Some b /\
    previousHash b = Some (hash p) /\ block_passes s b.
Proof.
  intros Hne. unfold chain_passes. cbn [blocks]. split.
  - intros (g & rest & Hobjs & Hnull & Hlinked & Hpass).
    apply blk_objects_snoc in Hobjs as (os & b & Heq & Hos & Hb).
    rewrite Heq in Hlinked, Hpass.
    apply linked_snoc in Hlinked as [Hlinked Hlast].
    apply Forall_app in Hpass as [Hpass Hpb].
    apply Forall_cons in Hpb as [Hpb _].
    destruct os as [|g' rest'].
    { pose proof (blk_objects_length _ _ _ Hos) as Hlen.
      destruct bs; [contradiction | discriminate]. }
    injection Heq as <- _. split.
    + exists g, rest'. auto.
    + destruct (proj2 (last_is_Some bs) Hne) as [rp Hrp].
      destruct (blk_objects_last _ _ _ _ Hos Hrp) as (p & Hp & Hrpp).
      exists rp, p, b. auto 10.
  - intros [(g & rest & Hobjs & Hnull & Hlinked & Hpass)
              (rp & p & b & Hrp & Hrpp & Hb & Hprev & Hpb)].
    exists g, (rest ++ [b]). split; [|split; [exact Hnull|split]].
    + apply blk_objects_snoc. exists (g :: rest), b. auto.
    + change (g :: rest ++ [b]) with ((g :: rest) ++ [b]).
      apply linked_snoc. split; [exact Hlinked|].
      intros p' Hp'.
      destruct (blk_objects_last _ _ _ _ Hobjs Hrp) as (p'' & Hp'' & Hrpp').
      congruence.
    + change (g :: rest ++ [b]) with ((g :: rest) ++ [b]).
      apply Forall_app. split; [exact Hpass|]. now constructor.
Qed.

Lemma block_gate_single r s :
  block_gate [r] s
  = match isValidBlock r s with
    | (Normal v, s1) => (Normal (negb v), s1)
    | (Throw e, s1) => (Throw e, s1)
    end.
Proof.
  unfold block_gate, some. cbn [some_from]. unfold mbind, M_bind.
  now destruct (isValidBlock r s) as [[[|]|e] s1].
Qed.

Lemma append_assoc (a b c : string) : (a +:+ b) +:+ c = a +:+ b +:+ c.
Proof.
  induction a as [|ch a IH]; [reflexivity|].
  change (String ch ((a +:+ b) +:+ c) = String ch (a +:+ b +:+ c)).
  now rewrite IH.
Qed.

Lemma chain_calls_length s objs :
  Forall (block_passes s) objs ->
  length (chain_calls s objs) = length (concat (transactions <$> objs)).
Proof.
  intros Hpass. destruct (flattened_objects _ _ Hpass) as (tobjs & Ht & _ & <-).
  rewrite length_fmap. symmetry.
  unfold tx_objects in Ht. apply mapM_Some in Ht. eapply Forall2_length, Ht.
Qed.

Lemma chain_passes_prefix s bs bs' :
  bs <> [] ->
  chain_passes s {| blocks := bs ++ bs' |} ->
  chain_passes s {| blocks := bs |}.
Proof.
  intros Hne. induction bs' as [|r bs' IH] using rev_ind.
  - now rewrite app_nil_r.
  - rewrite app_assoc. intros H. apply IH.
    apply chain_passes_snoc in H as [H _]; [exact H|].
    intros E. apply app_eq_nil in E as [-> _]. contradiction.
Qed.

(** ** Further properties, stated *)

(** X1.  When the element at index 0 of [blocks] is a block object whose
    [previousHash] is not [null], [isValidChain] returns [false] at its
    first gate: nothing else of the chain is read, no collaborator call is
    made, and the store is as before. *)
Theorem isValidChain_genesis_not_null blockchain s r0 g :
  blocks blockchain !! 0%nat = Some r0 ->
  blks s !! r0 = Some g ->
  previousHash g <> None ->
  isValidChain blockchain s = (Normal false, s).
Proof.
  intros Hr0 Hg Hprev. unfold isValidChain. cbv zeta. rewrite Hr0.
  rewrite (bind_normal _ _ _ _ _ (blk_get_obj previousHash _ _ _ Hg)).
  destruct (previousHash g); [reflexivity | contradiction].
Qed.

(** X2.  Over dense arrays (arrays without holes), [isValidChain] returns
    [true] exactly on the chains that satisfy the ledger's invariants:
    [blocks] is a non-empty array of block objects; the first has a
    [null] [previousHash]; every later block
    stores the hash of the block before it; and in every block the
    transactions are transaction objects, the stored hash is the digest of
    [previousHash + signatures + nonce], and every transaction has a
    non-negative amount and a signature the collaborator accepts over
    [source + recipient + amount]. *)
Theorem isValidChain_accepts_iff blockchain s :
  result (isValidChain blockchain s) = Normal true <->
  exists g rest,
    blk_objects s (blocks blockchain) = Some (g :: rest) /\
    previousHash g = None /\
    (forall i p b,
       (g :: rest) !! i = Some p -> (g :: rest) !! S i = Some b ->
       previousHash b = Some (hash p)) /\
    Forall (fun b =>
              exists objs,
                tx_objects s (transactions b) = Some objs /\
                hash b = sha512_hex (ToString_nullable (previousHash b)
                                     +:+ join "" (signature <$> objs)
                                     +:+ Number_toString (nonce b)) /\
                Forall (fun t =>
                          0 <= amount t /\
                          verify (source t)
                                 (source t +:+ recipient t
                                  +:+ Number_toString (amount t))
                                 (signature t) = Normal true) objs)
           (g :: rest).
Proof.
  split.
  - apply isValidChain_passes_of_accepts.
  - apply isValidChain_accepts_of_passes.
Qed.

(** X3.  On a chain of one block object with a [null] [previousHash],
    [isValidChain] completes as [isValidBlock] does on that block: the
    same boolean, or the same exception. *)
Theorem isValidChain_single_block r s g :
  blks s !! r = Some g ->
  previousHash g = None ->
  result (isValidChain {| blocks := [r] |} s) = result (isValidBlock r s).
Proof.
  intros Hg Hnull.
  assert (Hobjs : blk_objects s (blocks {| blocks := [r] |}) = Some [g]).
  { apply blk_objects_cons. exists g, []. auto. }
  assert (Hlinked : linked [g]).
  { intros i p b _ Hb. destruct i; discriminate. }
  rewrite (isValidChain_past_linkage _ _ _ _ Hobjs Hnull Hlinked).
  cbn [blocks]. pose proof (block_gate_single r s) as Hgate.
  pose proof (observer_final _ s (observer_isValidBlock r)) as Hs.
  destruct (isValidBlock r s) as [[[|]|e] s1] eqn:E; cbn [final snd] in Hs.
  - rewrite (bind_normal _ _ _ _ _ Hgate). cbn [negb].
    apply flattened_check_accepts. intros r' Hr'.
    apply list_elem_of_singleton in Hr' as ->.
    rewrite (observer_result _ s s1 (observer_isValidBlock r) Hs).
    now rewrite E.
  - now rewrite (bind_normal _ _ _ _ _ Hgate).
  - now rewrite (bind_throw _ _ _ _ _ Hgate).
Qed.

(** X4.  A chain extended by one block is valid exactly when the chain was
    valid, the new block stores the hash of the last block of the chain,
    and [isValidBlock] accepts the new block. *)
Theorem isValidChain_snoc bs r s :
  bs <> [] ->
  result (isValidChain {| blocks := bs ++ [r] |} s) = Normal true <->
  result (isValidChain {| blocks := bs |} s) = Normal true /\
  exists rp p b,
    last bs = Some rp /\ blks s !! rp = Some p /\ blks s !! r = Some b /\
    previousHash b = Some (hash p) /\
    result (isValidBlock r s) = Normal true.
Proof.
  intros Hne. split.
  - intros H. apply isValidChain_passes_of_accepts in H.
    apply (chain_passes_snoc _ _ _ Hne) in H
      as [Hc (rp & p & b & Hrp & Hp & Hb & Hprev & Hpb)].
    split; [now apply isValidChain_accepts_of_passes|].
    exists rp, p, b. repeat (split; [assumption|]).
    apply isValidBlock_accepts_passes. eauto.
  - intros [H (rp & p & b & Hrp & Hp & Hb & Hprev & Hv)].
    apply isValidChain_accepts_of_passes, (chain_passes_snoc _ _ _ Hne).
    split; [now apply isValidChain_passes_of_accepts|].
    exists rp, p, b. repeat (split; [assumption|]).
    apply isValidBlock_accepts_passes in Hv as (b' & Hb' & Hpb). congruence.
Qed.

(** X5.  On a chain it accepts, [isValidChain] calls the collaborator
    twice for each transaction: once per transaction in chain order during
    the per-block gate, then once more per transaction in the same order
    during the pass over the flattened transactions.  The number of calls
    is twice the number of transactions of the chain. *)
Theorem isValidChain_verifies_twice blockchain s objs :
  result (isValidChain blockchain s) = Normal true ->
  blk_objects s (blocks blockchain) = Some objs ->
  verify_calls (final (isValidChain blockchain s))
  = verify_calls s ++ chain_calls s objs ++ chain_calls s objs /\
  length (verify_calls (final (isValidChain blockchain s)))
  = (length (verify_calls s)
     + 2 * length (concat (transactions <$> objs)))%nat.
Proof.
  intros H Hobjs.
  apply isValidChain_passes_of_accepts in H
    as (g & rest & Hobjs' & Hnull & Hlinked & Hpass).
  assert (objs = g :: rest) as -> by congruence.
  rewrite (isValidChain_passing_run _ _ _ _ Hobjs Hnull Hlinked Hpass).
  cbn [final snd verify_calls record_calls]. split; [reflexivity|].
  rewrite !length_app, (chain_calls_length _ _ Hpass). lia.
Qed.

(** X6.  [breakChain] is idempotent: a second call after one that
    returned normally returns normally and leaves the store the first call
    left. *)
Theorem breakChain_idempotent blockchain s s' :
  breakChain blockchain s = (Normal tt, s') ->
  breakChain blockchain s' = (Normal tt, s').
Proof.
  intros H.
  apply breakChain_normal in H as (r1 & b1 & l & ls & t & Hr1 & Hb1 & Hts
                                    & Ht & ->).
  assert (Ht' : txs (tampered s l t) !! l = Some (with_amount t 999999999)).
  { unfold tampered. cbn [txs with_txs]. apply lookup_insert_eq. }
  rewrite (breakChain_writes blockchain (tampered s l t) r1 b1 l ls _
             Hr1 Hb1 Hts Ht').
  unfold tampered, with_txs. cbn [txs blks verify_calls].
  now rewrite insert_insert_eq.
Qed.

(** X7.  Tamper detection rests on the signature alone.  On a chain that
    [isValidChain] accepts, after [breakChain] has overwritten the amount
    of the first transaction of the block at index 1, [isValidChain]
    completes exactly as the collaborator does on that transaction's
    [source], the message [source + recipient + "999999999"] and its
    unchanged [signature]: [false] if the collaborator rejects it, and
    still [true] if the collaborator accepts it, the hash gates being
    blind to amounts. *)
Theorem breakChain_then_isValidChain blockchain s r1 b1 l ls t :
  result (isValidChain blockchain s) = Normal true ->
  blocks blockchain !! 1%nat = Some r1 ->
  blks s !! r1 = Some b1 ->
  transactions b1 = l :: ls ->
  txs s !! l = Some t ->
  result (isValidChain blockchain (final (breakChain blockchain s)))
  = verify (source t) (source t +:+ recipient t +:+ "999999999")
           (signature t).
Proof.
  intros H Hr1 Hb1 Hts Ht.
  rewrite (breakChain_writes _ _ _ _ _ _ _ Hr1 Hb1 Hts Ht). cbn [final snd].
  apply isValidChain_passes_of_accepts in H.
  exact (isValidChain_tampered _ _ _ _ _ _ _ H Hr1 Hb1 Hts Ht).
Qed.

(** X8.  The verdict of [isValidBlock] on a block depends on that block
    object and on the transaction objects it holds, and on nothing else of
    the store: between two stores that agree on them, the call completes
    alike. *)
Theorem isValidBlock_local block s s' b :
  blks s !! block = Some b ->
  blks s' !! block = Some b ->
  (forall x, x ∈ transactions b -> txs s' !! x = txs s !! x) ->
  result (isValidBlock block s') = result (isValidBlock block s).
Proof. apply isValidBlock_result_local. Qed.

(** X9.  The signed message does not determine the transaction.  A
    transaction of 2 to recipient [r + "1"] and a transaction of 12 to
    recipient [r], with the same source and signature, hand the
    collaborator the same message, so [isValidTransaction] completes alike
    on both. *)
Theorem isValidTransaction_boundary_ambiguity s l1 l2 src r sig :
  txs s !! l1 = Some {| source := src; recipient := r +:+ "1";
                        amount := 2; signature := sig |} ->
  txs s !! l2 = Some {| source := src; recipient := r;
                        amount := 12; signature := sig |} ->
  result (isValidTransaction l1 s) = result (isValidTransaction l2 s).
Proof.
  intros H1 H2. rewrite !isValidTransaction_result, H1, H2.
  unfold signed_message. cbn.
  now rewrite append_assoc.
Qed.

(** X10.  [isValidBlock] reads the signature of every transaction before
    it compares hashes: on a block object whose [transactions] array has
    an element that is no object ([undefined] or [null]), it throws
    [TypeError], whatever hash the block stores, and the store is as
    before. *)
Theorem isValidBlock_non_object_throws block s b :
  blks s !! block = Some b ->
  tx_objects s (transactions b) = None ->
  isValidBlock block s = (Throw TypeError, s).
Proof.
  intros Hb Hobjs. unfold isValidBlock.
  rewrite (bind_normal _ _ _ _ _ (blk_get_obj transactions _ _ _ Hb)).
  now rewrite (bind_throw _ _ _ _ _ (map_tx_get_missing signature _ _ Hobjs)).
Qed.

(** X11.  Validity is closed under truncation: when [isValidChain] accepts
    a chain, it accepts every non-empty initial segment of it. *)
Theorem isValidChain_prefix bs bs' s :
  bs <> [] ->
  result (isValidChain {| blocks := bs ++ bs' |} s) = Normal true ->
  result (isValidChain {| blocks := bs |} s) = Normal true.
Proof.
  intros Hne H. apply isValidChain_accepts_of_passes.
  apply (chain_passes_prefix _ _ bs' Hne).
  now apply isValidChain_passes_of_accepts.
Qed.

End Validation.

(** ** The module on the small ledger *)

(** The three-block chain of the ledger is valid; after [breakChain] it is
    not: the second block still has the hash it stores, and its first
    transaction no longer verifies. *)
Example chain_valid_then_broken :
  result (isValidChain Demo.verify Demo.digest Demo.chain Demo.ledger)
  = Normal true /\
  result (isValidChain Demo.verify Demo.digest Demo.chain
            (final (breakChain Demo.chain Demo.ledger)))
  = Normal false /\
  result (isValidBlock Demo.verify Demo.digest 2%positive
            (final (breakChain Demo.chain Demo.ledger)))
  = Normal false /\
  result (isValidTransaction Demo.verify 10%positive
            (final (breakChain Demo.chain Demo.ledger)))
  = Normal false.
Proof. vm_compute. repeat split. Qed.

(** A chain of the genesis block alone is valid. *)
Example genesis_only_valid :
  result (isValidChain Demo.verify Demo.digest Demo.genesis_only Demo.ledger)
  = Normal true.
Proof. vm_compute. reflexivity. Qed.

(** A transaction object that two blocks hold is one object: the write of
    [breakChain] through the block at index 1 shows through the block at
    index 0 as well. *)
Example breakChain_shared_transaction :
  result ((ts ← blk_get transactions (blocks Demo.sharing_chain !! 0%nat);
           tx_get amount (ts !! 0%nat))
            (final (breakChain Demo.sharing_chain Demo.ledger)))
  = Normal 999999999.
Proof. vm_compute. reflexivity. Qed.

(** An exception of the collaborator passes through the validators. *)
Example collaborator_exception_propagates :
  result (isValidTransaction Demo.verify 1%positive
            {| txs := {[ 1%positive :=
                           {| source := ""; recipient := "bob"; amount := 1;
                              signature := "" |} ]};
               blks := ∅; verify_calls := [] |})
  = Throw (CollaboratorError "bad public key").
Proof. vm_compute. reflexivity. Qed.

(** Numbers as strings: every digit up to [2^53], the shortest digits
    that read back beyond, exponent form from [10^21] on. *)
Example Number_toString_examples :
  Number_toString <$> [0; -12; 999999999; 2 ^ 53; 2 ^ 53 + 1; 2 ^ 64;
                        10 ^ 20; 10 ^ 21; - 10 ^ 21; 15 * 10 ^ 20;
                        10 ^ 21 - 131072; 2 ^ 70; 10 ^ 23; 2 ^ 1024]
  = ["0"; "-12"; "999999999"; "9007199254740992"; "9007199254740992";
     "18446744073709552000"; "100000000000000000000"; "1e+21"; "-1e+21";
     "1.5e+21"; "999999999999999900000"; "1.1805916207174113e+21"; "1e+23";
     "Infinity"].
Proof. vm_compute. reflexivity. Qed.

(** An amount of [1e21] enters the signed message in exponent form. *)
Example isValidTransaction_exponent_amount :
  isValidTransaction
    (fun _ msg _ => Normal (String.eqb msg "ab1e+21")) 1%positive
    {| txs := {[ 1%positive :=
                   {| source := "a"; recipient := "b"; amount := 10 ^ 21;
                      signature := "sig" |} ]};
       blks := ∅; verify_calls := [] |}
  = (Normal true,
     {| txs := {[ 1%positive :=
                    {| source := "a"; recipient := "b"; amount := 10 ^ 21;
                       signature := "sig" |} ]};
        blks := ∅; verify_calls := [("a", "ab1e+21", "sig")] |}).
Proof. vm_compute. reflexivity. Qed.

(** A nonce of [1e21] enters the hashed string in exponent form. *)
Example isValidBlock_exponent_nonce :
  result (isValidBlock Demo.verify Demo.digest 1%positive
            {| txs := ∅;
               blks := {[ 1%positive :=
                            {| transactions := []; previousHash := None;
                               nonce := 10 ^ 21;
                               hash := Demo.digest "null1e+21" |} ]};
               verify_calls := [] |})
  = Normal true.
Proof. vm_compute. reflexivity. Qed.

(** ** The claims at concrete inputs *)

Lemma isValidBlock_hash_then_transactions_witness :
  result (isValidBlock Demo.verify Demo.digest 5%positive Demo.ledger)
  = Normal false /\
  result (isValidBlock Demo.verify Demo.digest 2%positive Demo.ledger)
  = Normal true.
Proof.
  split.
  - destruct (isValidBlock_hash_then_transactions Demo.verify Demo.digest
                5%positive Demo.ledger Demo.altered [Demo.alice_pays_bob])
      as [Hdiff _]; [vm_compute; reflexivity | vm_compute; reflexivity |].
    rewrite Hdiff; [reflexivity | vm_compute; discriminate].
  - destruct (isValidBlock_hash_then_transactions Demo.verify Demo.digest
                2%positive Demo.ledger Demo.second
                [Demo.alice_pays_bob; Demo.bob_pays_carol])
      as [_ Hsame]; [vm_compute; reflexivity | vm_compute; reflexivity |].
    apply Hsame; [vm_compute; reflexivity|].
    intros t Ht. apply elem_of_cons in Ht as [->|Ht];
      [vm_compute; reflexivity|].
    apply elem_of_cons in Ht as [->|Ht]; [vm_compute; reflexivity|].
    inversion Ht.
Defined.

Lemma isValidTransaction_negative_amount_witness :
  isValidTransaction Demo.verify 12%positive Demo.ledger
  = (Normal false, Demo.ledger).
Proof.
  apply (isValidTransaction_negative_amount Demo.verify 12%positive
           Demo.ledger Demo.negative); [vm_compute; reflexivity | cbn; lia].
Defined.

Lemma isValidTransaction_delegates_to_verify_witness :
  result (isValidTransaction Demo.verify 13%positive Demo.ledger)
  = Demo.verify "carol" "carolalice1" "forged" /\
  verify_calls (final (isValidTransaction Demo.verify 13%positive Demo.ledger))
  = [("carol", "carolalice1", "forged")] /\
  same_objects Demo.ledger
    (final (isValidTransaction Demo.verify 13%positive Demo.ledger)).
Proof.
  apply (isValidTransaction_delegates_to_verify Demo.verify 13%positive
           Demo.ledger Demo.unsigned); [vm_compute; reflexivity | cbn; lia].
Defined.

Lemma isValidChain_broken_link_witness :
  isValidChain Demo.verify Demo.digest Demo.unlinked_chain Demo.ledger
  = (Normal false, Demo.ledger).
Proof.
  apply (isValidChain_broken_link Demo.verify Demo.digest
           Demo.unlinked_chain Demo.ledger [Demo.genesis; Demo.stray]
           0%nat Demo.genesis Demo.stray);
    [vm_compute; reflexivity | reflexivity | reflexivity
    | vm_compute; discriminate].
Defined.

Lemma isValidBlock_no_transactions_witness :
  exists v,
    isValidBlock Demo.verify Demo.digest 1%positive Demo.ledger
    = (Normal v, Demo.ledger) /\
    (v = true <->
     hash Demo.genesis
     = Demo.digest (ToString_nullable (previousHash Demo.genesis)
                    +:+ "" +:+ Number_toString (nonce Demo.genesis))).
Proof.
  apply (isValidBlock_no_transactions Demo.verify Demo.digest 1%positive
           Demo.ledger Demo.genesis); [vm_compute; reflexivity | reflexivity].
Defined.

Lemma breakChain_frame_witness :
  exists s' t',
    breakChain Demo.chain Demo.ledger = (Normal tt, s') /\
    txs s' !! 10%positive = Some t' /\
    amount t' = 999999999 /\
    source t' = source Demo.alice_pays_bob /\
    recipient t' = recipient Demo.alice_pays_bob /\
    signature t' = signature Demo.alice_pays_bob /\
    (forall l', l' <> 10%positive -> txs s' !! l' = txs Demo.ledger !! l') /\
    blks s' = blks Demo.ledger /\
    blks s' !! 2%positive = Some Demo.second /\
    verify_calls s' = verify_calls Demo.ledger.
Proof.
  apply (breakChain_frame Demo.chain Demo.ledger 2%positive Demo.second
           10%positive [11%positive] Demo.alice_pays_bob);
    [reflexivity | vm_compute; reflexivity | reflexivity
    | vm_compute; reflexivity].
Defined.

Lemma breakChain_partial_witness :
  breakChain Demo.genesis_only Demo.ledger = (Throw TypeError, Demo.ledger) /\
  breakChain Demo.empty_second Demo.ledger = (Throw TypeError, Demo.ledger).
Proof.
  split.
  - apply (breakChain_partial Demo.genesis_only Demo.ledger). cbn. lia.
  - apply (proj2 (proj2 (breakChain_partial Demo.empty_second Demo.ledger))
             3%positive Demo.third);
      [reflexivity | vm_compute; reflexivity | reflexivity].
Defined.

(** ** The further properties at concrete inputs *)

Lemma isValidChain_genesis_not_null_witness :
  isValidChain Demo.verify Demo.digest Demo.headless Demo.ledger
  = (Normal false, Demo.ledger).
Proof.
  apply (isValidChain_genesis_not_null Demo.verify Demo.digest Demo.headless
           Demo.ledger 2%positive Demo.second);
    [reflexivity | vm_compute; reflexivity | discriminate].
Defined.

Lemma isValidChain_single_block_witness :
  result (isValidChain Demo.verify Demo.digest Demo.genesis_only Demo.ledger)
  = result (isValidBlock Demo.verify Demo.digest 1%positive Demo.ledger).
Proof.
  apply (isValidChain_single_block Demo.verify Demo.digest 1%positive
           Demo.ledger Demo.genesis); [vm_compute; reflexivity | reflexivity].
Defined.

Lemma isValidChain_snoc_witness :
  result (isValidChain Demo.verify Demo.digest
            {| blocks := [1%positive; 2%positive] ++ [3%positive] |}
            Demo.ledger) = Normal true <->
  result (isValidChain Demo.verify Demo.digest
            {| blocks := [1%positive; 2%positive] |} Demo.ledger)
  = Normal true /\
  exists rp p b,
    last [1%positive; 2%positive] = Some rp /\
    blks Demo.ledger !! rp = Some p /\
    blks Demo.ledger !! 3%positive = Some b /\
    previousHash b = Some (hash p) /\
    result (isValidBlock Demo.verify Demo.digest 3%positive Demo.ledger)
    = Normal true.
Proof.
  apply (isValidChain_snoc Demo.verify Demo.digest
           [1%positive; 2%positive] 3%positive Demo.ledger).
  discriminate.
Defined.

Lemma isValidChain_verifies_twice_witness :
  verify_calls (final (isValidChain Demo.verify Demo.digest Demo.chain
                         Demo.ledger))
  = [call_of Demo.alice_pays_bob; call_of Demo.bob_pays_carol;
     call_of Demo.alice_pays_bob; call_of Demo.bob_pays_carol] /\
  length (verify_calls (final (isValidChain Demo.verify Demo.digest
                                 Demo.chain Demo.ledger)))
  = 4%nat.
Proof.
  destruct (isValidChain_verifies_twice Demo.verify Demo.digest Demo.chain
              Demo.ledger [Demo.genesis; Demo.second; Demo.third])
    as [Hcalls Hlen]; [vm_compute; reflexivity | vm_compute; reflexivity |].
  split; [rewrite Hcalls | rewrite Hlen]; vm_compute; reflexivity.
Defined.

Lemma breakChain_idempotent_witness :
  breakChain Demo.chain (final (breakChain Demo.chain Demo.ledger))
  = (Normal tt, final (breakChain Demo.chain Demo.ledger)).
Proof.
  apply (breakChain_idempotent Demo.chain Demo.ledger).
  vm_compute. reflexivity.
Defined.

Lemma breakChain_then_isValidChain_witness :
  result (isValidChain Demo.verify Demo.digest Demo.chain
            (final (breakChain Demo.chain Demo.ledger)))
  = Normal false.
Proof.
  rewrite (breakChain_then_isValidChain Demo.verify Demo.digest Demo.chain
             Demo.ledger 2%positive Demo.second 10%positive [11%positive]
             Demo.alice_pays_bob);
    [| vm_compute; reflexivity | reflexivity | vm_compute; reflexivity
     | reflexivity | vm_compute; reflexivity].
  vm_compute. reflexivity.
Defined.

Lemma isValidBlock_local_witness :
  result (isValidBlock Demo.verify Demo.digest 2%positive Demo.other_ledger)
  = result (isValidBlock Demo.verify Demo.digest 2%positive Demo.ledger).
Proof.
  apply (isValidBlock_local Demo.verify Demo.digest 2%positive Demo.ledger
           Demo.other_ledger Demo.second);
    [vm_compute; reflexivity | vm_compute; reflexivity |].
  intros x Hx. apply elem_of_cons in Hx as [->|Hx];
    [vm_compute; reflexivity|].
  apply elem_of_cons in Hx as [->|Hx]; [vm_compute; reflexivity|].
  inversion Hx.
Defined.

Lemma isValidTransaction_boundary_ambiguity_witness :
  result (isValidTransaction Demo.verify 1%positive Demo.ambiguous_ledger)
  = result (isValidTransaction Demo.verify 2%positive Demo.ambiguous_ledger).
Proof.
  apply (isValidTransaction_boundary_ambiguity Demo.verify
           Demo.ambiguous_ledger 1%positive 2%positive
           "alice" "bob" (Demo.sign "alice" "alicebob12"));
    vm_compute; reflexivity.
Defined.

Lemma isValidBlock_non_object_throws_witness :
  isValidBlock Demo.verify Demo.digest 1%positive Demo.hollow_ledger
  = (Throw TypeError, Demo.hollow_ledger).
Proof.
  apply (isValidBlock_non_object_throws Demo.verify Demo.digest 1%positive
           Demo.hollow_ledger Demo.hollow); vm_compute; reflexivity.
Defined.

Lemma isValidChain_prefix_witness :
  result (isValidChain Demo.verify Demo.digest
            {| blocks := [1%positive; 2%positive] |} Demo.ledger)
  = Normal true.
Proof.
  apply (isValidChain_prefix Demo.verify Demo.digest
           [1%positive; 2%positive] [3%positive] Demo.ledger);
    [discriminate | vm_compute; reflexivity].
Defined.
